(** * The time tracker

    A shallow embedding of the parts of the application that compute:
    - the task component's [friendlyTime] and [time] (module [Task]);
    - the component loader, the promise exported by components/index.js
      (module [Components]);
    - the file-backed resource store (module [Store]): the lazily loaded
      graph ([loadGraph], [loadDB]), the three operations offered to the
      user interface ([find], [save], [delete]), the whole-file persistence
      ([persistGraph]) and the id generator ([generateUniqueID]).

    The definitions come first; the properties of the store follow them in
    [Store], those of the other two parts in [TaskFacts] and
    [ComponentsFacts]. *)

From Equations Require Import Equations.
From stdpp Require Import gmap strings list sorting pretty.

(** * The task component (src/components/task)

    [friendlyTime] and the computed property [time]. Times are integer
    numbers of milliseconds ([Z]): a difference of [getTime()] stamps;
    [Math.floor(x / n)] is the floor division [x / n]. A template literal
    prints an integer in decimal ([pretty]) and [undefined] as the text
    'undefined' ([interpolate]); a function that falls off its end returns
    [undefined] ([None]). The sums, products and quotients are those of the
    integers: they are those of the code as long as the numbers stay within
    2^53 in magnitude, where the doubles of JavaScript are exact. *)

Module Task.

#[local] Open Scope Z_scope.

(** A time entry [{ from, to }]. *)
Record entry := Entry { from : Z; to : Z }.

(** [`${s}`] for a string, or [undefined]. *)
Definition interpolate (s : option string) : string := default "undefined" s.

(** The constants of [friendlyTime], as functions of its argument. *)
Definition seconds (milliseconds : Z) : Z := milliseconds / 1000.
Definition minutes (milliseconds : Z) : Z := seconds milliseconds / 60.
Definition hours (milliseconds : Z) : Z := minutes milliseconds / 60.
Definition days (milliseconds : Z) : Z := hours milliseconds / 24.
Definition weeks (milliseconds : Z) : Z := days milliseconds / 7.
Definition months (milliseconds : Z) : Z := weeks milliseconds / 4.
Definition years (milliseconds : Z) : Z := months milliseconds / 12.

(** The branch [friendlyTime] takes; it decreases along the recursion. *)
Definition level (milliseconds : Z) : nat :=
  if decide (seconds milliseconds < 60) then 0
  else if decide (minutes milliseconds < 60) then 1
  else if decide (hours milliseconds < 24) then 2
  else if decide (days milliseconds < 7) then 3
  else if decide (weeks milliseconds < 4) then 4
  else if decide (months milliseconds < 12) then 5
  else 6.

Equations? friendlyTime (milliseconds : Z) : option string
  by wf (level milliseconds) lt :=
  friendlyTime milliseconds with decide (seconds milliseconds < 60) => {
    | left H1 => Some (pretty (seconds milliseconds) +:+ "sec");
    | right H2 with decide (minutes milliseconds < 60) => {
      | left H3 =>
          Some (pretty (minutes milliseconds) +:+ "min " +:+
                interpolate (friendlyTime
                  (milliseconds - minutes milliseconds * 1000 * 60)));
      | right H4 with decide (hours milliseconds < 24) => {
        | left H5 =>
            Some (pretty (hours milliseconds) +:+ "hr " +:+
                  interpolate (friendlyTime
                    (milliseconds - hours milliseconds * 1000 * 60 * 60)));
        | right H6 with decide (days milliseconds < 7) => {
          | left H7 =>
              Some (pretty (days milliseconds) +:+ "d " +:+
                    interpolate (friendlyTime
                      (milliseconds - days milliseconds * 1000 * 60 * 60 * 24)));
          | right H8 with decide (weeks milliseconds < 4) => {
            | left H9 =>
                Some (pretty (weeks milliseconds) +:+ "w " +:+
                      interpolate (friendlyTime
                        (milliseconds
                         - weeks milliseconds * 1000 * 60 * 60 * 24 * 7)));
            | right H10 with decide (months milliseconds < 12) => {
              | left H11 =>
                  Some (pretty (months milliseconds) +:+ "m " +:+
                        interpolate (friendlyTime
                          (milliseconds
                           - months milliseconds * 1000 * 60 * 60 * 24 * 7 * 4)));
              | right H12 with decide (years milliseconds < 12) => {
                | left H13 =>
                    Some (pretty (years milliseconds) +:+ "y " +:+
                          interpolate (friendlyTime
                            (milliseconds
                             - years milliseconds
                               * 1000 * 60 * 60 * 24 * 7 * 4 * 12)));
                | right H14 => None } } } } } } }.
Proof.
  all: unfold level.
  all: repeat (destruct (decide _)); try done; try lia.
  all: exfalso.
  all: unfold years, months, weeks, days, hours, minutes, seconds in *.
  all: Z.div_mod_to_equations; lia.
Qed.

(** [friendlyTime] prints so many whole units of [unit] milliseconds, then,
    after [suffix], what it prints for the rest. *)
Definition splits (milliseconds unit : Z) (suffix : string) : Prop :=
  ∃ rest,
    friendlyTime (milliseconds `mod` unit) = Some rest
    ∧ friendlyTime milliseconds
      = Some (pretty (milliseconds / unit) +:+ suffix +:+ rest).

(** The computed property [time] of a task with the given [entries]. *)
Definition time (entries : list entry) : option string :=
  friendlyTime (foldl (λ total entry, total + (to entry - from entry)) 0 entries).

End Task.

(** * The component loader (src/components/index.js)

    The promise the module exports: the names of the components are read
    from the directory, each component module is required and given its
    template. The host is a record: what [fs.readdir], [require] and
    [fs.readFile] answer, [path.join], [__dirname], and, when several reads
    fail, which callback runs first. A promise is rejected at once when the
    async function throws before its first [await], later when a callback
    rejects it. *)

Module Components.

Section Loader.

(** The errors of the host, and what a component module exports besides its
    template. *)
Context {error settings : Type}.

Record Options := mkOptions {
  template : option string;       (* [None]: no template yet *)
  others : settings
}.

Record Component := mkComponent {
  name : string;
  options : Options
}.

Record host := Host {
  readdir : error + list string;            (* the (err, files) of fs.readdir *)
  require : string → error + Options;       (* throws, or the exports *)
  readFile : string → error + string;       (* the (err, data) of fs.readFile *)
  path_join : string → string → string → string;
  dirname : string;
  first_to_fail : list error → error        (* of the failed reads *)
}.

Inductive promise (A : Type) :=
  | Fulfills (a : A)
  | RejectsAtOnce (e : error)
  | RejectsLater (e : error).

Arguments Fulfills {A} a.
Arguments RejectsAtOnce {A} e.
Arguments RejectsLater {A} e.

Definition fulfilled {A} (p : promise A) : option A :=
  match p with Fulfills a => Some a | _ => None end.

Definition rejected_at_once {A} (p : promise A) : option error :=
  match p with RejectsAtOnce e => Some e | _ => None end.

Definition rejected_later {A} (p : promise A) : option error :=
  match p with RejectsLater e => Some e | _ => None end.

(** [Promise.all(ps)]: the values in order when all fulfil; otherwise the
    reason of the promise that rejects first, which is the first one in the
    array among those rejected at once. *)
Definition Promise_all {A} (h : host) (ps : list (promise A)) : error + list A :=
  match omap rejected_at_once ps with
  | e :: _ => inl e
  | [] =>
      match omap rejected_later ps with
      | [] => inr (omap fulfilled ps)
      | es => inl (first_to_fail h es)
      end
  end.

Definition retrieveComponents (h : host) : error + list string :=
  match readdir h with
  | inl err => inl err
  | inr files => inr (filter (λ file, file ≠ "index.js") files)
  end.

Definition retrieveTemplate (h : host) (name : string) : error + string :=
  let templateFile := path_join h (dirname h) name "template.html" in
  match readFile h templateFile with
  | inl err => inl err
  | inr data => inr data
  end.

Definition retrieveComponentOptions (h : host) (name : string)
  : promise Component :=
  match require h ("./" +:+ name +:+ "/index") with
  | inl err => RejectsAtOnce err
  | inr options =>
      match retrieveTemplate h name with
      | inl err => RejectsLater err
      | inr data => Fulfills (mkComponent name (mkOptions (Some data) (others options)))
      end
  end.

Definition retrieveComponentsOptions (h : host) (components : list string)
  : error + list Component :=
  Promise_all h (retrieveComponentOptions h <$> components).

(** [module.exports = retrieveComponents().then(retrieveComponentsOptions)]. *)
Definition module_exports (h : host) : error + list Component :=
  match retrieveComponents h with
  | inl err => inl err
  | inr components => retrieveComponentsOptions h components
  end.

(** The component that a directory entry [file] loads as: its module's
    exports, with the content of its template file. *)
Definition loaded_as (h : host) (file : string) (c : Component) : Prop :=
  ∃ exports data,
    require h ("./" +:+ file +:+ "/index") = inr exports
    ∧ readFile h (path_join h (dirname h) file "template.html") = inr data
    ∧ c = mkComponent file (mkOptions (Some data) (others exports)).

End Loader.

Arguments Options : clear implicits.
Arguments Component : clear implicits.
Arguments host : clear implicits.
Arguments promise : clear implicits.
Arguments Fulfills {error A} a.
Arguments RejectsAtOnce {error A} e.
Arguments RejectsLater {error A} e.

(** The three components of the application, and one whose template is
    missing. *)
Definition app_files : list string := ["index.js"; "new-task"; "task"; "tasks"].

Definition app_host (files : list string) : host string unit :=
  Host (inr files)
       (λ id, if decide (id = "./broken/index") then inl "MODULE_NOT_FOUND"
              else inr (mkOptions None ()))
       (λ path, if decide (path = "src/components/ghost/template.html")
                then inl "ENOENT"
                else inr ("<template of " +:+ path +:+ ">"))
       (λ a b c, a +:+ "/" +:+ b +:+ "/" +:+ c)
       "src/components"
       (λ es, default "" (head es)).

End Components.

(** * The resource store (src/store)

    Modelling decisions.
    - The graph is a JavaScript object used as a map from type names to
      partitions. The model keeps, in a [gmap string partition], every
      member that the property access [graph[type]] reaches: the own
      properties of the graph and the members every object inherits from
      [Object.prototype] ([Object_prototype]), each with the numeric
      properties it holds. So [g !! type = None] is
      [graph[type] === undefined], and the object [{}] is [empty_object],
      not the empty map. [JSON.stringify] writes own properties only.
      The numeric properties that a partition itself would inherit, once
      resources have been saved under the type '__proto__', are not
      followed: where a statement depends on their absence it says so
      ([entry g "__proto__" k = None]).
    - A partition is a JavaScript object keyed by ids. Its properties are
      kept in creation order, as an association list; [Object.keys]
      enumerates array indices in ascending order and then the other keys
      in creation order, which is what [Object_keys] computes. Ids are
      natural numbers ([N]), written in decimal as property keys (from
      10^21 on JavaScript writes a number with an exponent, which the model
      does not follow).
    - The numbers of JavaScript are doubles: [Number] rounds a natural
      number to the nearest double, and is the identity up to 2^53.
    - A resource is modelled by value: its [type] and [id] fields ([None]
      when the field is [null] or [undefined]) and the remaining fields,
      which the store never inspects. The assignment [resource.id = ...]
      made by [save] is returned as the updated resource. The graph holds
      the very object it was given: what its caller assigns to that object
      later on is outside the model.
    - The graph cached by [loadGraph] is one shared object: every holder of
      the load promise sees each mutation. The model keeps it in the store
      state ([promise]) and writes every mutation back with [set_graph].
    - Asynchronous operations are run to completion one at a time; a promise
      that never settles is the outcome [Pending]. The interleaving of
      several callers around the first read is modelled separately, on the
      [loadGraph] closure alone ([loader], [event], [step]), and the
      interleaving of two [save]s around [await generateUniqueID] on the
      two halves of [save] ([save_until_id], [save_from_id]).
    - The file system can fail: [read_fault] and [write_fault] give, for the
      n-th read or write, the error code it fails with (if any).
    - [JSON.stringify] and [JSON.parse] belong to the host: they are the
      two operations of the interface [JSON]. *)

Open Scope N_scope.

Module Store.

(** ** Errors and promises *)

Inductive error :=
  | Error (message : string)   (* new Error(message) *)
  | FsError (code : string).   (* an error of the file system, with its code *)

(** The settled (or not) state of a promise. *)
Inductive result (A : Type) :=
  | Resolve (a : A)
  | Reject (e : error)
  | Pending.                   (* never settles *)

Arguments Resolve {A} a.
Arguments Reject {A} e.
Arguments Pending {A}.

(** ** Resources and the graph *)

(** [data] is the type of the fields of a resource other than [type] and
    [id]. *)
Record Resource (data : Type) := mkResource {
  type : option string;
  id : option N;
  fields : data
}.

Arguments mkResource {data} type id fields.
Arguments type {data} r.
Arguments id {data} r.
Arguments fields {data} r.

(** A type partition, in property creation order. *)
Abbreviation partition data := (list (N * Resource data)).

Abbreviation Graph data := (gmap string (partition data)).

(** The host's JSON codec, for a file content of type [text]. *)
Class JSON (data text : Type) := {
  JSON_stringify : Graph data → text;
  JSON_parse : text → option (Graph data)   (* [None]: a SyntaxError is thrown *)
}.

Section Model.

Context {data text : Type} `{!JSON data text}.

(** ** Property access on a partition *)

(** [p[k]]: [None] is [undefined]. *)
Fixpoint pget (k : N) (p : partition data) : option (Resource data) :=
  match p with
  | [] => None
  | (k', r) :: p' => if decide (k' = k) then Some r else pget k p'
  end.

Fixpoint preplace (k : N) (r : Resource data) (p : partition data) : partition data :=
  match p with
  | [] => []
  | (k', r') :: p' =>
      (k', if decide (k' = k) then r else r') :: preplace k r p'
  end.

(** [p[k] = r]: an existing property keeps its place, a new one is created
    last. *)
Definition pset (k : N) (r : Resource data) (p : partition data) : partition data :=
  match pget k p with
  | Some _ => preplace k r p
  | None => p ++ [(k, r)]
  end.

(** [delete p[k]]. *)
Definition pdel (k : N) (p : partition data) : partition data :=
  filter (λ kr, kr.1 ≠ k) p.

(** ** Numbers and keys *)

(** 2^53: up to it every natural number is a double. *)
Definition exact : N := 9007199254740992.

(** The double nearest to the natural number [n], ties going to the even
    mantissa: the value of [Number(key)] for the key that is [n] written in
    decimal, and the result of an addition whose exact value is [n]. The
    model has no [Infinity]: beyond 2^1024 it goes on rounding. *)
Definition Number (n : N) : N :=
  let e := N.log2 n - 52 in            (* the bits beyond the 53 of a mantissa *)
  if decide (e = 0) then n
  else
    let q := N.shiftr n e in
    let r := n - N.shiftl q e in
    let half := N.shiftl 1 (e - 1) in
    N.shiftl
      (if decide (half < r ∨ (half = r ∧ N.odd q = true)) then q + 1 else q) e.

(** 2^32 - 1: the keys below it are array indices. *)
Definition max_index : N := 4294967295.

(** [Object.keys(p)]: the array indices in ascending order, then the other
    keys in creation order. *)
Definition Object_keys (p : partition data) : list N :=
  merge_sort N.le (filter (λ k, k < max_index) p.*1)
  ++ filter (λ k, ¬ k < max_index) p.*1.

(** [Math.max(0, ...ks)]: every key is converted to a number. *)
Definition Math_max (ks : list N) : N := foldr N.max 0 (Number <$> ks).

(** ** The members every object inherits *)

(** The names of the members of [Object.prototype]. *)
Definition Object_prototype : list string :=
  ["constructor"; "__defineGetter__"; "__defineSetter__"; "hasOwnProperty";
   "__lookupGetter__"; "__lookupSetter__"; "isPrototypeOf";
   "propertyIsEnumerable"; "toString"; "valueOf"; "__proto__";
   "toLocaleString"].

(** The object [{}]: it has no own property, and each inherited member is
    an object without numeric properties. *)
Definition empty_object : Graph data :=
  list_to_map ((λ name, (name, [])) <$> Object_prototype).

(** The graph is an object: the inherited members are defined on it. *)
Definition object (g : Graph data) : Prop :=
  ∀ name, name ∈ Object_prototype → is_Some (g !! name).

(** ** The file system *)

Record fs := Fs {
  file : option text;                    (* the data file, [None] if absent *)
  read_fault : nat → option string;      (* error code of the n-th read *)
  write_fault : nat → option string;     (* error code of the n-th write *)
  reads : nat;                           (* calls of fs.readFile so far *)
  writes : nat                           (* calls of fs.writeFile so far *)
}.

(** [fs.readFile(dbPath, 'utf-8', callback)]: the [(err, content)] given to
    the callback. *)
Definition readFile (d : fs) : (error + text) * fs :=
  let d' := Fs (file d) (read_fault d) (write_fault d) (S (reads d)) (writes d) in
  match read_fault d (reads d) with
  | Some code => (inl (FsError code), d')
  | None =>
      match file d with
      | Some content => (inr content, d')
      | None => (inl (FsError "ENOENT"), d')
      end
  end.

(** [fs.writeFile(dbPath, data, 'utf-8', callback)]: the [err] given to the
    callback. *)
Definition writeFile (data : text) (d : fs) : option error * fs :=
  match write_fault d (writes d) with
  | Some code =>
      (Some (FsError code),
       Fs (file d) (read_fault d) (write_fault d) (reads d) (S (writes d)))
  | None =>
      (None,
       Fs (Some data) (read_fault d) (write_fault d) (reads d) (S (writes d)))
  end.

(** ** The store *)

(** [promise] is the variable of the [loadGraph] closure: [None] is [null]. *)
Record store := Store {
  promise : option (result (Graph data));
  disk : fs
}.

(** ** persistGraph *)

Definition persistGraph (payload : Graph data) (d : fs) : result (Graph data) * fs :=
  match writeFile (JSON_stringify payload) d with
  | (Some err, d') => (Reject err, d')
  | (None, d') => (Resolve payload, d')
  end.

(** ** loadDB *)

(** The callback of [readFile] is an async function: when
    [await persistGraph({})] or [JSON.parse(content)] throws, neither
    [resolve] nor [reject] is called and the promise never settles. *)
Definition loadDB (d : fs) : result (Graph data) * fs :=
  match readFile d with
  | (inl (FsError code), d1) =>
      if decide (code ≠ "ENOENT") then (Reject (FsError code), d1)
      else
        match persistGraph empty_object d1 with
        | (Resolve g, d2) => (Resolve g, d2)
        | (_, d2) => (Pending, d2)
        end
  | (inl err, d1) => (Reject err, d1)
  | (inr content, d1) =>
      match JSON_parse content with
      | Some g => (Resolve g, d1)
      | None => (Pending, d1)
      end
  end.

(** ** loadGraph *)

Definition loadGraph (st : store) : result (Graph data) * store :=
  match promise st with
  | None =>
      let '(o, d) := loadDB (disk st) in
      (o, Store (Some o) d)
  | Some o => (o, st)
  end.

(** A mutation of the graph the load promise resolved with. *)
Definition set_graph (g : Graph data) (st : store) : store :=
  match promise st with
  | Some (Resolve _) => Store (Some (Resolve g)) (disk st)
  | _ => st
  end.

(** ** generateUniqueID *)

Definition generateUniqueID (type : string) (st : store) : result N * store :=
  match loadGraph st with
  | (Resolve graph, st1) =>
      match graph !! type with
      | None => (Resolve 0, st1)
      | Some p => (Resolve (Number (Math_max (Object_keys p) + 1)), st1)
      end
  | (Reject e, st1) => (Reject e, st1)
  | (Pending, st1) => (Pending, st1)
  end.

(** ** find *)

(** What [find] resolves with: one property value ([None] is [undefined])
    or an array of them. *)
Inductive found :=
  | One (r : option (Resource data))
  | Many (rs : list (option (Resource data))).

Definition find (type : string) (id : option N) (st : store)
  : result found * store :=
  match loadGraph st with
  | (Resolve graph, st1) =>
      match graph !! type with
      | None => (Reject (Error "unrecognized type"), st1)
      | Some p =>
          match id with
          | Some k => (Resolve (One (pget k p)), st1)
          | None => (Resolve (Many ((λ id, pget id p) <$> Object_keys p)), st1)
          end
      end
  | (Reject e, st1) => (Reject e, st1)
  | (Pending, st1) => (Pending, st1)
  end.

(** ** save *)

(** [save] up to the point where the id of the resource is known: the
    checks, the creation of the partition and, when an id has to be
    generated, [await generateUniqueID(resource.type)]. *)
Definition save_until_id (resource : Resource data) (st : store)
  : result N * store :=
  match type resource with
  | None => (Reject (Error "resources must have a type"), st)
  | Some ty =>
      match loadGraph st with
      | (Resolve graph, st1) =>
          (* if (graph[resource.type] === undefined) graph[resource.type] = {} *)
          let graph1 :=
            match graph !! ty with
            | None => <[ty := []]> graph
            | Some _ => graph
            end in
          let st2 := set_graph graph1 st1 in
          let p := default [] (graph1 !! ty) in
          match id resource with
          | Some k =>
              match pget k p with
              | Some _ => (Resolve k, st2)
              | None => generateUniqueID ty st2
              end
          | None => generateUniqueID ty st2
          end
      | (Reject e, st1) => (Reject e, st1)
      | (Pending, st1) => (Pending, st1)
      end
  end.

(** [save] from there on: the id is assigned to the resource, the resource
    is put in the graph as the graph is at that moment, and the graph is
    persisted. The result also carries the input resource as the call
    leaves it. *)
Definition save_from_id (resource : Resource data) (resourceID : N) (st : store)
  : result (Graph data) * Resource data * store :=
  match type resource, promise st with
  | Some ty, Some (Resolve graph) =>
      let resource' := mkResource (type resource) (Some resourceID) (fields resource) in
      let graph2 := <[ty := pset resourceID resource' (default [] (graph !! ty))]> graph in
      let st4 := set_graph graph2 st in
      let '(o, d) := persistGraph graph2 (disk st4) in
      (o, resource', Store (promise st4) d)
  | _, _ => (Pending, resource, st)      (* not reached after [save_until_id] *)
  end.

(** [save], run without another call in between. *)
Definition save (resource : Resource data) (st : store)
  : result (Graph data) * Resource data * store :=
  match save_until_id resource st with
  | (Resolve resourceID, st3) => save_from_id resource resourceID st3
  | (Reject e, st3) => (Reject e, resource, st3)
  | (Pending, st3) => (Pending, resource, st3)
  end.

(** ** delete *)

(** [None] is the [undefined] of a bare [return]. *)
Definition delete (resource : Resource data) (st : store)
  : result (option (Graph data)) * store :=
  match type resource with
  | None => (Reject (Error "resources must have a type"), st)
  | Some ty =>
      match id resource with
      | None => (Resolve None, st)
      | Some k =>
          match loadGraph st with
          | (Resolve graph, st1) =>
              match graph !! ty with
              | None => (Resolve None, st1)
              | Some p =>
                  let graph1 := <[ty := pdel k p]> graph in
                  let st2 := set_graph graph1 st1 in
                  match persistGraph graph1 (disk st2) with
                  | (Resolve g, d) => (Resolve (Some g), Store (promise st2) d)
                  | (Reject e, d) => (Reject e, Store (promise st2) d)
                  | (Pending, d) => (Pending, Store (promise st2) d)
                  end
              end
          | (Reject e, st1) => (Reject e, st1)
          | (Pending, st1) => (Pending, st1)
          end
      end
  end.

(** ** Runs of the store *)

(** A call made by the user interface. *)
Inductive call :=
  | Find (type : string) (id : option N)
  | Save (resource : Resource data)
  | Delete (resource : Resource data).

(** The state a call leaves the store in. *)
Definition exec (c : call) (st : store) : store :=
  match c with
  | Find type id => (find type id st).2
  | Save resource => (save resource st).2
  | Delete resource => (delete resource st).2
  end.

Definition run (cs : list call) (st : store) : store :=
  foldl (λ st c, exec c st) st cs.

(** The states of a process: it starts with [promise = null] on some file
    system. *)
Inductive reachable : store → Prop :=
  | reachable_start d : reachable (Store None d)
  | reachable_exec c st : reachable st → reachable (exec c st).

(** [graph[type][id]]. *)
Definition entry (g : Graph data) (type : string) (id : N) : option (Resource data) :=
  g !! type ≫= pget id.

(** ** Callers around the first read

    [loadGraph] alone, with the read of [loadDB] in flight: a call of the
    store runs up to its first [await]; the callback of [readFile] settles
    the promise later, or never. *)

Inductive loading :=
  | Null                                (* promise === null *)
  | InFlight                            (* loadDB() was called, not settled *)
  | Settled (o : Graph data + error).        (* resolved or rejected *)

Record loader := Loader {
  shared : loading;      (* the promise variable of the closure *)
  disk_reads : nat       (* calls of loadDB, each one readFile *)
}.

Inductive event :=
  | Call (c : call)                     (* a call starts *)
  | Settle (o : Graph data + error).         (* the callback resolves or rejects *)

(** Does the call reach its [await loadGraph()]? *)
Definition needs_graph (c : call) : bool :=
  match c with
  | Find _ _ => true
  | Save resource => bool_decide (is_Some (type resource))
  | Delete resource =>
      bool_decide (is_Some (type resource)) && bool_decide (is_Some (id resource))
  end.

(** [if (promise === null) promise = loadDB()]. *)
Definition loadGraph_call (l : loader) : loader :=
  match shared l with
  | Null => Loader InFlight (S (disk_reads l))
  | _ => l
  end.

Definition step (l : loader) (e : event) : loader :=
  match e with
  | Call c => if needs_graph c then loadGraph_call l else l
  | Settle o =>
      match shared l with
      | InFlight => Loader (Settled o) (disk_reads l)
      | _ => l
      end
  end.

Definition steps (es : list event) (l : loader) : loader := foldl step l es.

End Model.

Arguments fs : clear implicits.
Arguments store : clear implicits.
Arguments call : clear implicits.
Arguments found : clear implicits.
Arguments loading : clear implicits.
Arguments loader : clear implicits.
Arguments event : clear implicits.

(** ** A concrete store: the tasks of the application

    The tasks component saves [{ type: 'tasks', name, entries: [] }] and
    pushes [{ from, to }] time stamps to [entries]. The file content is kept
    as the document it denotes: the own properties of the graph (no
    document here has a key named as a member of [Object.prototype]).
    [JSON.parse] makes an object of it, which inherits those members. *)

Record task := Task {
  name : string;
  entries : list (N * N)
}.

#[local] Instance document : JSON task (gmap string (partition task)) := {
  JSON_stringify g := filter (λ kv, kv.1 ∉ Object_prototype) g;
  JSON_parse content := Some (content ∪ empty_object)
}.

(** A file system without faults. *)
Definition healthy (content : option (gmap string (partition task)))
  : fs (gmap string (partition task)) :=
  Fs content (λ _, None) (λ _, None) 0 0.

(** A file system whose reads fail with a permission error. *)
Definition unreadable : fs (gmap string (partition task)) :=
  Fs None (λ _, Some "EACCES") (λ _, None) 0 0.

(** A file system whose writes fail: a read-only volume. *)
Definition readonly (content : option (gmap string (partition task)))
  : fs (gmap string (partition task)) :=
  Fs content (λ _, None) (λ _, Some "EROFS") 0 0.

(** A new task, as [createTask] makes it. *)
Definition new_task (name : string) : Resource task :=
  mkResource (Some "tasks") None (Task name []).

Definition stored_task (id : N) (name : string) : Resource task :=
  mkResource (Some "tasks") (Some id) (Task name []).

(** The graph object whose only partition is that of the tasks. *)
Definition tasks (p : partition task) : Graph task :=
  <["tasks" := p]> empty_object.

(** A process that has not loaded anything, next to no data file. *)
Definition first_run : store task (gmap string (partition task)) :=
  Store None (healthy None).

(** A process that has loaded the graph [g], the file holding it. *)
Definition loaded (g : Graph task)
  : store task (gmap string (partition task)) :=
  Store (Some (Resolve g)) (healthy (Some (JSON_stringify g))).

(** A resource with one number for its fields: [JSON.stringify] writes the
    number [NaN] as [null]. *)
Inductive number :=
  | Finite (n : N)
  | NaN
  | null.

Definition written (r : Resource number) : Resource number :=
  mkResource (type r) (id r) match fields r with NaN => null | x => x end.

#[local] Instance numbers : JSON number (gmap string (partition number)) := {
  JSON_stringify g :=
    (λ p : partition number, (λ kr, (kr.1, written kr.2)) <$> p)
      <$> filter (λ kv, kv.1 ∉ Object_prototype) g;
  JSON_parse content := Some (content ∪ empty_object)
}.

(** * Properties *)

Section Proofs.

Context {data text : Type} `{!JSON data text}.

Implicit Types (p : partition data) (g : gmap string (partition data)).
Implicit Types (st : store data text) (d : fs text) (r : Resource data).
Implicit Types (k m : N) (ty : string).

(** ** Partitions *)

Lemma pget_Some_elem k r p : pget k p = Some r → (k, r) ∈ p.
Proof.
  induction p as [|[k' r'] p IH]; simpl; [done|].
  case_decide; [intros [= ->]; subst; left | right; auto].
Qed.

Lemma pget_None k p : pget k p = None ↔ k ∉ p.*1.
Proof.
  induction p as [|[k' r'] p IH]; simpl.
  - split; [intros _; apply not_elem_of_nil | done].
  - rewrite not_elem_of_cons, <- IH. case_decide.
    + split; [done | by intros [? _]].
    + split; [by split; [congruence|] | by intros [_ ?]].
Qed.

Lemma pget_is_Some k p : is_Some (pget k p) ↔ k ∈ p.*1.
Proof.
  rewrite <- not_eq_None_Some, pget_None.
  destruct (decide (k ∈ p.*1)); tauto.
Qed.

Lemma pget_NoDup k r p : NoDup p.*1 → (k, r) ∈ p → pget k p = Some r.
Proof.
  induction p as [|[k' r'] p IH]; simpl; [by intros _ ?%elem_of_nil|].
  intros [Hk' Hp]%NoDup_cons [[= -> ->]|Hin]%elem_of_cons.
  - by rewrite decide_True.
  - rewrite decide_False; [auto|].
    intros ->. apply Hk'. apply (list_elem_of_fmap_2 fst) in Hin. done.
Qed.

Lemma pget_app_None k k' r p :
  pget k' (p ++ [(k, r)]) =
  match pget k' p with
  | Some r' => Some r'
  | None => if decide (k = k') then Some r else None
  end.
Proof.
  induction p as [|[k0 r0] p IH]; simpl; [done|].
  by destruct (decide (k0 = k')).
Qed.

Lemma pget_preplace k k' r p :
  pget k' (preplace k r p) =
  if decide (k = k') then (λ _, r) <$> pget k p else pget k' p.
Proof.
  induction p as [|[k0 r0] p IH]; simpl.
  - by destruct (decide (k = k')).
  - rewrite IH.
    destruct (decide (k0 = k')), (decide (k0 = k)), (decide (k = k'));
      by subst.
Qed.

Lemma pget_pset k k' r p :
  pget k' (pset k r p) = if decide (k = k') then Some r else pget k' p.
Proof.
  unfold pset. destruct (pget k p) as [r0|] eqn:Hk.
  - rewrite pget_preplace. case_decide; [by rewrite Hk | done].
  - rewrite pget_app_None. case_decide; subst; [by rewrite Hk|].
    by destruct (pget k' p).
Qed.

Lemma pget_pdel k k' p :
  pget k' (pdel k p) = if decide (k = k') then None else pget k' p.
Proof.
  unfold pdel. induction p as [|[k0 r0] p IH].
  - simpl. by destruct (decide (k = k')).
  - rewrite filter_cons. simpl.
    destruct (decide (k0 ≠ k)) as [Hne|Heq]; simpl; rewrite IH.
    + destruct (decide (k0 = k')), (decide (k = k')); by subst.
    + apply dec_stable in Heq. subst. by destruct (decide (k = k')).
Qed.

Lemma preplace_keys k r p : (preplace k r p).*1 = p.*1.
Proof. induction p as [|[k0 r0] p IH]; csimpl; by f_equal. Qed.

Lemma pset_keys_old k r p :
  is_Some (pget k p) → (pset k r p).*1 = p.*1.
Proof. intros [r0 Hk]. unfold pset. rewrite Hk. apply preplace_keys. Qed.

Lemma pdel_keys k p : (pdel k p).*1 = filter (λ k', k' ≠ k) p.*1.
Proof.
  unfold pdel. induction p as [|[k0 r0] p IH]; [done|].
  rewrite fmap_cons, !filter_cons. simpl.
  destruct (decide (k0 ≠ k)); csimpl; by f_equal.
Qed.

(** ** Numbers, [Math.max] and [Object.keys] *)

Lemma Number_exact n : n ≤ exact → Number n = n.
Proof.
  unfold exact. intros Hn. destruct (decide (n = 9007199254740992)) as [->|Hne].
  { vm_compute. reflexivity. }
  unfold Number. rewrite decide_True; [done|].
  destruct (decide (n = 0)) as [->|Hpos]; [done|].
  assert (N.log2 n < 53); [|lia].
  apply N.log2_lt_pow2; [lia|]. change (2 ^ 53) with 9007199254740992. lia.
Qed.

Lemma Math_max_exact (ks : list N) :
  (∀ k, k ∈ ks → k < exact) → Math_max ks = foldr N.max 0 ks.
Proof.
  unfold Math_max. induction ks as [|k ks IH]; [done|]. intros Hall. csimpl.
  rewrite IH by (intros k' ?; apply Hall; by right).
  rewrite Number_exact; [done|]. apply N.lt_le_incl, Hall. left.
Qed.

Lemma max_ge (ks : list N) k : k ∈ ks → k ≤ foldr N.max 0 ks.
Proof.
  induction ks as [|k0 ks IH]; simpl; [by intros ?%elem_of_nil|].
  intros [->|Hin]%elem_of_cons; [lia|]. specialize (IH Hin). lia.
Qed.

Lemma max_elem (ks : list N) : ks ≠ [] → foldr N.max 0 ks ∈ ks.
Proof.
  induction ks as [|k0 ks IH]; simpl; [done|]. intros _.
  destruct ks as [|k1 ks].
  - simpl. rewrite N.max_0_r. left.
  - destruct (N.max_spec k0 (foldr N.max 0 (k1 :: ks))) as [[_ ->]|[_ ->]].
    + right. by apply IH.
    + left.
Qed.

Lemma max_lt (ks : list N) m :
  0 < m → (∀ k, k ∈ ks → k < m) → foldr N.max 0 ks < m.
Proof.
  intros Hm. induction ks as [|k ks IH]; simpl; [done|]. intros Hall.
  apply N.max_lub_lt; [apply Hall; left | apply IH].
  intros k' Hk'. apply Hall. by right.
Qed.

Lemma max_perm (ks ks' : list N) :
  ks ≡ₚ ks' → foldr N.max 0 ks = foldr N.max 0 ks'.
Proof. induction 1; simpl; lia. Qed.

Lemma Math_max_perm (ks ks' : list N) : ks ≡ₚ ks' → Math_max ks = Math_max ks'.
Proof. intros Hp. unfold Math_max. apply max_perm. by rewrite Hp. Qed.

Lemma Object_keys_perm p : Object_keys p ≡ₚ p.*1.
Proof.
  unfold Object_keys. rewrite merge_sort_Permutation.
  apply filter_app_complement.
Qed.

(** Below 2^53 the id that [generateUniqueID] computes for a partition is
    the greatest key plus one, exactly. *)
Lemma generated_exact p :
  (∀ k, k ∈ p.*1 → k < exact) →
  Number (Math_max (Object_keys p) + 1) = foldr N.max 0 p.*1 + 1.
Proof.
  intros Hall. rewrite (Math_max_perm _ _ (Object_keys_perm p)).
  rewrite (Math_max_exact _ Hall). apply Number_exact.
  assert (foldr N.max 0 p.*1 < exact); [|lia].
  apply max_lt; [done|exact Hall].
Qed.

(** ** The cached graph *)

Lemma loadGraph_cached st o : promise st = Some o → loadGraph st = (o, st).
Proof. intros Hp. unfold loadGraph. by rewrite Hp. Qed.

Lemma set_graph_loaded st g g' :
  promise st = Some (Resolve g) →
  set_graph g' st = Store (Some (Resolve g')) (disk st).
Proof. intros Hp. unfold set_graph. by rewrite Hp. Qed.

Lemma generateUniqueID_loaded st g ty :
  promise st = Some (Resolve g) →
  generateUniqueID ty st =
    (Resolve match g !! ty with
             | None => 0
             | Some p => Number (Math_max (Object_keys p) + 1)
             end, st).
Proof.
  intros Hp. unfold generateUniqueID. rewrite (loadGraph_cached _ _ Hp).
  by destruct (g !! ty).
Qed.

(** The first half of [save] on a loaded store: the id, and the partition
    created if it was not there. *)
Lemma save_until_id_loaded st g r ty :
  promise st = Some (Resolve g) →
  type r = Some ty →
  let p := default [] (g !! ty) in
  save_until_id r st =
    (Resolve match id r with
             | Some k0 =>
                 if pget k0 p is Some _ then k0
                 else Number (Math_max (Object_keys p) + 1)
             | None => Number (Math_max (Object_keys p) + 1)
             end,
     Store (Some (Resolve (<[ty := p]> g))) (disk st)).
Proof.
  intros Hp Hty. unfold save_until_id. rewrite Hty, (loadGraph_cached _ _ Hp).
  set (g1 := match g !! ty with None => <[ty:=[]]> g | Some _ => g end).
  assert (Hg1 : g1 = <[ty := default [] (g !! ty)]> g).
  { subst g1. destruct (g !! ty) eqn:E; [by rewrite insert_id | done]. }
  rewrite Hg1, lookup_insert_eq. simpl.
  rewrite (set_graph_loaded st g _ Hp).
  assert (Hgen : generateUniqueID ty
                   (Store (Some (Resolve (<[ty:=default [] (g !! ty)]> g))) (disk st)) =
                 (Resolve (Number (Math_max (Object_keys (default [] (g !! ty))) + 1)),
                  Store (Some (Resolve (<[ty:=default [] (g !! ty)]> g))) (disk st))).
  { rewrite (generateUniqueID_loaded _ (<[ty:=default [] (g !! ty)]> g)) by done.
    by rewrite lookup_insert_eq. }
  destruct (id r) as [k0|]; [|done].
  by destruct (pget k0 (default [] (g !! ty))).
Qed.

(** [save] on a loaded store, in one equation: the id it resolves, the
    graph it leaves in memory and the write it attempts. *)
Lemma save_loaded st g r ty :
  promise st = Some (Resolve g) →
  type r = Some ty →
  ∃ k,
    let p := default [] (g !! ty) in
    let r' := mkResource (type r) (Some k) (fields r) in
    let g' := <[ty := pset k r' p]> g in
    match id r with
    | Some k0 =>
        if pget k0 p is Some _ then k = k0
        else k = Number (Math_max (Object_keys p) + 1)
    | None => k = Number (Math_max (Object_keys p) + 1)
    end
    ∧ save r st =
        ((persistGraph g' (disk st)).1, r',
         Store (Some (Resolve g')) (persistGraph g' (disk st)).2).
Proof.
  intros Hp Hty. unfold save.
  rewrite (save_until_id_loaded _ _ _ _ Hp Hty). simpl.
  match goal with |- context [save_from_id r ?k0 _] => exists k0 end.
  split.
  - destruct (id r) as [k0|]; [|done].
    by destruct (pget k0 (default [] (g !! ty))).
  - unfold save_from_id. rewrite Hty. simpl.
    rewrite lookup_insert_eq, insert_insert_eq. simpl.
    unfold set_graph. simpl. by destruct (persistGraph _ _).
Qed.

(** A [save] that does not reach the second half leaves the resource as it
    is. *)
Lemma save_not_loaded st r ty :
  type r = Some ty →
  (∀ g, (loadGraph st).1 ≠ Resolve g) →
  save r st = ((match (loadGraph st).1 with
                | Reject e => Reject e
                | _ => Pending
                end), r, (loadGraph st).2).
Proof.
  intros Hty Hno. unfold save, save_until_id. rewrite Hty.
  destruct (loadGraph st) as [[g| |] st1]; simpl in *; [|done..].
  by destruct (Hno g).
Qed.

Lemma loadGraph_promise st :
  promise (loadGraph st).2 = Some (loadGraph st).1.
Proof.
  unfold loadGraph. destruct (promise st) as [o|] eqn:Hp; [done|].
  by destruct (loadDB (disk st)).
Qed.

Lemma loadGraph_idem st : loadGraph (loadGraph st).2 = loadGraph st.
Proof.
  rewrite (loadGraph_cached _ _ (loadGraph_promise st)).
  by destruct (loadGraph st).
Qed.

(** A call on a store that has not loaded yet is the same call on the store
    once loaded. *)
Lemma save_load st r ty :
  type r = Some ty → save r st = save r (loadGraph st).2.
Proof. intros Hty. unfold save, save_until_id. by rewrite Hty, loadGraph_idem. Qed.

Lemma find_load st ty i : find ty i st = find ty i (loadGraph st).2.
Proof. unfold find. by rewrite loadGraph_idem. Qed.

Lemma delete_load st r ty k :
  type r = Some ty → id r = Some k → delete r st = delete r (loadGraph st).2.
Proof. intros Hty Hid. unfold delete. by rewrite Hty, Hid, loadGraph_idem. Qed.

Lemma loadGraph_resolved st g :
  (loadGraph st).1 = Resolve g → promise (loadGraph st).2 = Some (Resolve g).
Proof. intros <-. apply loadGraph_promise. Qed.

(** ** Identifiers *)

(** C1, as the code behaves: [save] creates the partition of a fresh type
    before it asks [generateUniqueID] for an id, so the first resource of
    the type is given [Math.max(0) + 1], that is 1 and not 0. *)
Theorem save_first_of_type_assigns_1 st g r ty :
  (loadGraph st).1 = Resolve g →
  type r = Some ty →
  id r = None →
  g !! ty = None →
  id (save r st).1.2 = Some 1.
Proof.
  intros Hg Hty Hid Hfresh. rewrite (save_load _ _ _ Hty).
  destruct (save_loaded _ _ _ _ (loadGraph_resolved _ _ Hg) Hty) as (k & Hk & ->).
  rewrite Hid, Hfresh in Hk. simpl in *. by subst k.
Qed.

(** C2, amended: a [save] run on its own that generates an id (the
    resource has none, or [graph[type][id]] is [undefined]: the id is no key
    of the partition and no property of [Object.prototype]) for a type whose
    partition is not empty and holds ids below 2^53 only, assigns the
    greatest id of the partition plus one; no id up to that greatest one is
    assigned again, whatever was deleted before. *)
Theorem save_fresh_id_is_max_plus_one st g r ty p :
  (loadGraph st).1 = Resolve g →
  type r = Some ty →
  g !! ty = Some p →
  p ≠ [] →
  (∀ k, k ∈ p.*1 → k < exact) →
  (id r = None
   ∨ (∃ k, id r = Some k ∧ (k ∉ p.*1) ∧ entry g "__proto__" k = None)) →
  ∃ m,
    m ∈ p.*1
    ∧ (∀ k, k ∈ p.*1 → k ≤ m)
    ∧ id (save r st).1.2 = Some (m + 1)
    ∧ (∀ k, k ≤ m → id (save r st).1.2 ≠ Some k).
Proof.
  intros Hg Hty Hp Hne Hsafe Hid. rewrite (save_load _ _ _ Hty).
  destruct (save_loaded _ _ _ _ (loadGraph_resolved _ _ Hg) Hty) as (k & Hk & ->).
  rewrite Hp in Hk. simpl in *.
  assert (k = Number (Math_max (Object_keys p) + 1)) as ->.
  { destruct Hid as [Hid|(k0 & Hid & Hk0 & _)]; rewrite Hid in Hk; [done|].
    apply pget_None in Hk0. by rewrite Hk0 in Hk. }
  rewrite (generated_exact _ Hsafe).
  exists (foldr N.max 0 p.*1). split_and!.
  - apply max_elem. by destruct p.
  - apply max_ge.
  - done.
  - intros k Hle [= Heq]. lia.
Qed.

(** ** Frame of an update *)

(** C3: saving a resource whose id is a key of its type's partition keeps
    the id and the resource as given, stores it under that key, leaves
    every other entry of every partition as it was, and neither creates,
    removes nor moves a key. *)
Theorem save_existing_overwrites_in_place st g r ty k p o r' st' :
  (loadGraph st).1 = Resolve g →
  type r = Some ty →
  id r = Some k →
  g !! ty = Some p →
  k ∈ p.*1 →
  save r st = (o, r', st') →
  id r' = Some k
  ∧ r' = r
  ∧ ∃ g',
      promise st' = Some (Resolve g')
      ∧ entry g' ty k = Some r'
      ∧ (∀ ty' k', (ty', k') ≠ (ty, k) → entry g' ty' k' = entry g ty' k')
      ∧ (∀ ty', fmap fst <$> g' !! ty' = fmap fst <$> g !! ty').
Proof.
  intros Hg Hty Hid Hp Hin. rewrite (save_load _ _ _ Hty).
  destruct (save_loaded _ _ _ _ (loadGraph_resolved _ _ Hg) Hty) as (k1 & Hk & ->).
  rewrite Hid, Hp in Hk. simpl in Hk.
  apply pget_is_Some in Hin as Hsome. destruct Hsome as [old Hold].
  rewrite Hold in Hk. subst k1. rewrite Hp. simpl.
  intros [= _ <- <-]. split; [done|]. split.
  { destruct r as [t i f]. simpl in *. by subst. }
  eexists. split; [done|]. unfold entry. split_and!.
  - rewrite lookup_insert_eq. simpl. rewrite pget_pset. by rewrite decide_True.
  - intros ty' k' Hne. destruct (decide (ty = ty')) as [<-|Hty'].
    + rewrite lookup_insert_eq, Hp. simpl. rewrite pget_pset.
      rewrite decide_False; [done|]. congruence.
    + by rewrite lookup_insert_ne.
  - intros ty'. destruct (decide (ty = ty')) as [<-|Hty'].
    + rewrite lookup_insert_eq, Hp. simpl. f_equal.
      apply pset_keys_old. by rewrite Hold.
    + by rewrite lookup_insert_ne.
Qed.

Lemma delete_loaded st g r ty k :
  promise st = Some (Resolve g) →
  type r = Some ty →
  id r = Some k →
  delete r st =
    match g !! ty with
    | None => (Resolve None, st)
    | Some p =>
        let g' := <[ty := pdel k p]> g in
        (match (persistGraph g' (disk st)).1 with
         | Resolve g'' => Resolve (Some g'')
         | Reject e => Reject e
         | Pending => Pending
         end,
         Store (Some (Resolve g')) (persistGraph g' (disk st)).2)
    end.
Proof.
  intros Hp Hty Hid. unfold delete.
  rewrite Hty, Hid, (loadGraph_cached _ _ Hp).
  destruct (g !! ty) as [p|]; [|done].
  rewrite (set_graph_loaded _ _ _ Hp). simpl.
  by destruct (persistGraph _ _) as [[]].
Qed.


Lemma pget_keys_values p ks :
  NoDup p.*1 → ks ⊆ p.*1 →
  ∃ rs, (λ k, pget k p) <$> ks = Some <$> rs
        ∧ Forall2 (λ k r, (k, r) ∈ p) ks rs.
Proof.
  intros Hnd. induction ks as [|k ks IH]; intros Hsub.
  { exists []. split; [done|constructor]. }
  destruct IH as (rs & Heq & Hall).
  { intros k' ?. apply Hsub. by right. }
  assert (Hk : is_Some (pget k p)) by (apply pget_is_Some, Hsub; left).
  destruct Hk as [r Hr]. exists (r :: rs). csimpl. rewrite Hr, Heq.
  split; [done|]. constructor; [by apply pget_Some_elem|done].
Qed.

(** The entries of an object whose keys are those of [p], each once, are
    the entries of [p], up to their order. *)
Lemma entries_perm p ks rs :
  NoDup p.*1 → ks ≡ₚ p.*1 → Forall2 (λ k r, (k, r) ∈ p) ks rs →
  rs ≡ₚ p.*2.
Proof.
  intros Hnd Hks Hall.
  assert (Hzip : zip ks rs ≡ₚ p).
  { apply NoDup_Permutation.
    - apply (NoDup_fmap_1 fst). rewrite fst_zip.
      + by rewrite Hks.
      + rewrite (Forall2_length _ _ _ Hall). apply Nat.le_refl.
    - by apply (NoDup_fmap_1 fst).
    - intros [k r]. split.
      + intros Hin. apply list_elem_of_lookup in Hin as [i Hi].
        apply lookup_zip_with_Some in Hi as (k' & r' & [= -> ->] & Hk & Hr).
        eapply Forall2_lookup_lr in Hall; eauto.
      + intros Hin.
        assert (Hk : k ∈ ks).
        { rewrite Hks. by apply (list_elem_of_fmap_2 fst) in Hin. }
        apply list_elem_of_lookup in Hk as [i Hi].
        destruct (Forall2_lookup_l _ _ _ _ _ Hall Hi) as (r' & Hr & Hin').
        assert (r' = r) as ->.
        { pose proof (pget_NoDup _ _ _ Hnd Hin) as H1.
          pose proof (pget_NoDup _ _ _ Hnd Hin') as H2. congruence. }
        apply list_elem_of_lookup. exists i.
        apply lookup_zip_with_Some. eauto 10. }
  rewrite <- Hzip. rewrite snd_zip; [done|].
  rewrite (Forall2_length _ _ _ Hall). apply Nat.le_refl.
Qed.

Lemma sorted_split (c : N) (l : list N) :
  StronglySorted N.lt l →
  filter (λ k, k < c) l ++ filter (λ k, ¬ k < c) l = l.
Proof.
  induction 1 as [|x l Hl IH Hx]; [done|].
  rewrite !filter_cons. destruct (decide (x < c)) as [Hlt|Hge].
  - rewrite decide_False by tauto. simpl. by rewrite IH.
  - rewrite decide_True by done.
    assert (Hnone : filter (λ k, k < c) l = []).
    { clear IH Hl. induction l as [|y l IHl]; [done|].
      apply Forall_cons in Hx as [Hy Hx]. rewrite filter_cons.
      rewrite decide_False by lia. auto. }
    rewrite Hnone in IH |- *. simpl in *. by rewrite IH.
Qed.

Lemma StronglySorted_filter (P : N → Prop) `{!∀ x, Decision (P x)} (l : list N) :
  StronglySorted N.lt l → StronglySorted N.lt (filter P l).
Proof.
  induction 1 as [|x l Hl IH Hx]; [constructor|].
  rewrite filter_cons. destruct (decide (P x)); [|done].
  constructor; [done|]. rewrite Forall_forall in *.
  intros y [_ Hy]%list_elem_of_filter. auto.
Qed.

Lemma Sorted_le_lt (l : list N) : NoDup l → Sorted N.le l → StronglySorted N.lt l.
Proof.
  intros Hnd Hs. apply Sorted_StronglySorted in Hs; [|intros x y z; lia].
  induction Hs as [|x l Hl IH Hx]; [constructor|].
  apply NoDup_cons in Hnd as [Hx' Hnd]. constructor; [auto|].
  rewrite Forall_forall in *. intros y Hy.
  assert (x ≠ y) by (by intros ->). specialize (Hx y Hy). lia.
Qed.

Lemma Object_keys_sorted p : StronglySorted N.lt p.*1 → Object_keys p = p.*1.
Proof.
  intros Hs. unfold Object_keys.
  rewrite <- (sorted_split max_index p.*1 Hs) at 3. f_equal.
  apply (Sorted_unique N.le).
  - apply Sorted_merge_sort. intros x y. lia.
  - apply StronglySorted_Sorted.
    apply (StronglySorted_filter (λ k, k < max_index)) in Hs.
    induction Hs as [|x l Hl IH Hx]; constructor; [done|].
    rewrite Forall_forall in *. intros y Hy. specialize (Hx y Hy). lia.
  - apply merge_sort_Permutation.
Qed.

(** ** [find] *)

(** C7, amended: [find] without an id resolves with the resources of the
    partition, one per key and none missing, each being the one [find]
    returns for its id, in the order of [Object.keys]: the ids below
    2^32 - 1 in ascending order, then the other ids in the order in which
    they were created. When the keys were created in ascending order, this
    is the order of creation. ([NoDup]: a partition is an object, it has no
    key twice.) *)
Theorem find_all_lists_partition st g ty p :
  (loadGraph st).1 = Resolve g →
  g !! ty = Some p →
  NoDup p.*1 →
  ∃ small rs,
    (find ty None st).1 = Resolve (Many (Some <$> rs))
    ∧ StronglySorted N.lt small
    ∧ small ≡ₚ filter (λ k, k < max_index) p.*1
    ∧ Forall2 (λ k r, (k, r) ∈ p)
        (small ++ filter (λ k, ¬ k < max_index) p.*1) rs
    ∧ rs ≡ₚ p.*2
    ∧ (∀ k r, (k, r) ∈ p → (find ty (Some k) st).1 = Resolve (One (Some r)))
    ∧ (StronglySorted N.lt p.*1 → rs = p.*2).
Proof.
  intros Hg Hp Hnd.
  destruct (pget_keys_values p (Object_keys p) Hnd) as (rs & Heq & Hall).
  { intros k. by rewrite Object_keys_perm. }
  exists (merge_sort N.le (filter (λ k, k < max_index) p.*1)), rs.
  unfold find. destruct (loadGraph st) as [o st1]. simpl in Hg. subst o.
  rewrite Hp. simpl. rewrite Heq. split_and!.
  - done.
  - apply Sorted_le_lt.
    + rewrite merge_sort_Permutation. by apply NoDup_filter.
    + apply Sorted_merge_sort. intros x y. lia.
  - apply merge_sort_Permutation.
  - exact Hall.
  - apply (entries_perm p (Object_keys p)); [done| |done].
    apply Object_keys_perm.
  - intros k r Hin. by rewrite (pget_NoDup _ _ _ Hnd Hin).
  - intros Hs. rewrite (Object_keys_sorted _ Hs) in Heq.
    apply (inj (fmap Some)). rewrite <- Heq.
    rewrite <- !list_fmap_compose. apply list_fmap_ext.
    intros i [k r] Hi. simpl. apply pget_NoDup; [done|].
    by eapply list_elem_of_lookup_2.
Qed.

Lemma empty_object_inherited name :
  name ∈ Object_prototype → empty_object (data:=data) !! name = Some [].
Proof.
  unfold Object_prototype.
  repeat (intros [->|Hin]%elem_of_cons; [by vm_compute|revert Hin]).
  by intros ?%elem_of_nil.
Qed.

Lemma empty_object_other name :
  name ∉ Object_prototype → empty_object (data:=data) !! name = None.
Proof.
  intros Hname. apply not_elem_of_list_to_map_1.
  by rewrite <- list_fmap_compose, list_fmap_id.
Qed.

Lemma object_empty : object (empty_object (data:=data)).
Proof. intros name Hname. by rewrite (empty_object_inherited _ Hname). Qed.

Lemma object_insert g ty p : object g → object (<[ty := p]> g).
Proof.
  intros Hg name Hname. destruct (decide (ty = name)) as [->|Hne].
  - by rewrite lookup_insert_eq.
  - rewrite lookup_insert_ne by done. by apply Hg.
Qed.

(** The first load next to no data file, when the write succeeds. *)
Lemma loadDB_creates d :
  (readFile d).1 = inl (FsError "ENOENT") →
  write_fault d (writes d) = None →
  (loadDB d).1 = Resolve empty_object
  ∧ file (loadDB d).2 = Some (JSON_stringify empty_object).
Proof.
  intros Hread Hwrite. unfold loadDB.
  assert (Hw : writes (readFile d).2 = writes d
               ∧ write_fault (readFile d).2 = write_fault d).
  { unfold readFile. destruct (read_fault d (reads d)); [done|].
    by destruct (file d). }
  destruct Hw as [Hw Hf].
  destruct (readFile d) as [x d1]. simpl in *. subst x.
  rewrite decide_False by (intros ?; done).
  unfold persistGraph, writeFile. by rewrite Hf, Hw, Hwrite.
Qed.

Lemma loadGraph_creates d :
  (readFile d).1 = inl (FsError "ENOENT") →
  write_fault d (writes d) = None →
  (loadGraph (Store None d)).1 = Resolve empty_object.
Proof.
  intros Hread Hwrite. destruct (loadDB_creates d Hread Hwrite) as [Hdb _].
  unfold loadGraph. simpl. by destruct (loadDB d).
Qed.

(** C6, as the code behaves: [find] tests [graph[type] === undefined], and
    that access also reaches the members every object inherits. On the
    graph [{}] of a first run, which has no partition at all, [find]
    rejects with 'unrecognized type' for every type that is not the name of
    an inherited member, but for 'constructor', 'toString' and the like it
    resolves: with the empty array without an id, with [undefined] with
    one. *)
Theorem find_resolves_for_inherited_member d :
  (readFile d).1 = inl (FsError "ENOENT") →
  write_fault d (writes d) = None →
  (loadGraph (Store None d)).1 = Resolve empty_object
  ∧ (∀ ty i, ty ∉ Object_prototype →
             (find ty i (Store None d)).1 = Reject (Error "unrecognized type"))
  ∧ (∀ name, name ∈ Object_prototype →
             (find name None (Store None d)).1 = Resolve (Many [])
             ∧ ∀ k, (find name (Some k) (Store None d)).1 = Resolve (One None)).
Proof.
  intros Hread Hwrite. pose proof (loadGraph_creates d Hread Hwrite) as Hg.
  split; [done|]. unfold find.
  destruct (loadGraph (Store None d)) as [o st1]. simpl in Hg. subst o.
  split.
  - intros ty i Hty. by rewrite (empty_object_other _ Hty).
  - intros name Hname. by rewrite (empty_object_inherited _ Hname).
Qed.

(** ** [delete] *)

(** C9, amended: [delete] of a resource that has a type but no id changes
    nothing and resolves with [undefined], whatever the state of the store;
    so does, once the graph is loaded, [delete] of a resource with an id
    whose type is undefined on the graph ([graph[type] === undefined]: no
    partition, and no inherited member of that name). When that [delete] is
    the call that loads the graph, the load is all it does; on a first run
    the load creates the data file. *)
Theorem delete_without_id_or_partition_is_noop st r ty :
  type r = Some ty →
  (id r = None → delete r st = (Resolve None, st))
  ∧ (∀ k g,
       id r = Some k → promise st = Some (Resolve g) →
       object g → g !! ty = None →
       delete r st = (Resolve None, st))
  ∧ (∀ k g,
       id r = Some k → (loadGraph st).1 = Resolve g →
       object g → g !! ty = None →
       delete r st = (Resolve None, (loadGraph st).2)).
Proof.
  intros Hty. split_and!.
  - intros Hid. unfold delete. by rewrite Hty, Hid.
  - intros k g Hid Hp _ Hnone.
    by rewrite (delete_loaded _ _ _ _ _ Hp Hty Hid), Hnone.
  - intros k g Hid Hg _ Hnone. rewrite (delete_load _ _ _ _ Hty Hid).
    rewrite (delete_loaded _ _ _ _ _ (loadGraph_resolved _ _ Hg) Hty Hid).
    by rewrite Hnone.
Qed.

(** ** Persistence *)

Lemma persistGraph_resolves g g' d :
  (persistGraph g d).1 = Resolve g' →
  g' = g ∧ file (persistGraph g d).2 = Some (JSON_stringify g).
Proof.
  unfold persistGraph, writeFile.
  destruct (write_fault d (writes d)); simpl; [done|]. by intros [= ->].
Qed.

Lemma persistGraph_rejects g e d :
  (persistGraph g d).1 = Reject e → ∃ code, e = FsError code.
Proof.
  unfold persistGraph, writeFile.
  destruct (write_fault d (writes d)); simpl; [|done]. intros [= <-]. eauto.
Qed.

Lemma persistGraph_reads g d : reads (persistGraph g d).2 = reads d.
Proof.
  unfold persistGraph, writeFile. by destruct (write_fault d (writes d)).
Qed.

Lemma loadDB_reads_file d g :
  file d = Some (JSON_stringify g) →
  read_fault d (reads d) = None →
  JSON_parse (JSON_stringify g) = Some g →
  (loadDB d).1 = Resolve g.
Proof.
  intros Hf Hr Hg. unfold loadDB, readFile. by rewrite Hr, Hf, Hg.
Qed.

(** C10, amended: when [save] or [delete] resolves with the graph, the
    data file holds the JSON text of the graph in memory; if [JSON.parse]
    gives that graph back from its text, a process started on that file
    loads the very same graph. With the graph loaded and a write that
    succeeds, [save] of a resource with a type does resolve with the graph,
    and so does [delete] of a resource with a type that is defined on the
    graph and an id, the entry being gone. *)
Theorem persisted_file_mirrors_graph st r :
  (∀ g r' st',
     save r st = (Resolve g, r', st') →
     promise st' = Some (Resolve g)
     ∧ file (disk st') = Some (JSON_stringify g)
     ∧ (JSON_parse (JSON_stringify g) = Some g →
        ∀ d, file d = file (disk st') → read_fault d (reads d) = None →
             (loadGraph (Store None d)).1 = Resolve g))
  ∧ (∀ g st',
       delete r st = (Resolve (Some g), st') →
       promise st' = Some (Resolve g)
       ∧ file (disk st') = Some (JSON_stringify g)
       ∧ (JSON_parse (JSON_stringify g) = Some g →
          ∀ d, file d = file (disk st') → read_fault d (reads d) = None →
               (loadGraph (Store None d)).1 = Resolve g))
  ∧ (∀ g0,
       promise st = Some (Resolve g0) →
       write_fault (disk st) (writes (disk st)) = None →
       (is_Some (type r) →
        ∃ g r' st', save r st = (Resolve g, r', st')
                    ∧ ∀ ty k, type r' = Some ty → id r' = Some k →
                              entry g ty k = Some r')
       ∧ (∀ ty k, type r = Some ty → id r = Some k → is_Some (g0 !! ty) →
                  ∃ g st', delete r st = (Resolve (Some g), st')
                           ∧ entry g ty k = None)).
Proof.
  assert (Hreload : ∀ g d0,
    file d0 = Some (JSON_stringify g) →
    JSON_parse (JSON_stringify g) = Some g →
    ∀ d, file d = file d0 → read_fault d (reads d) = None →
         (loadGraph (Store None d)).1 = Resolve g).
  { intros g d0 Hf Hg d Hd Hr. unfold loadGraph. simpl.
    pose proof (loadDB_reads_file d g) as Hl. rewrite Hd in Hl.
    specialize (Hl Hf Hr Hg). by destruct (loadDB d). }
  split_and!.
  - intros g r' st' Hsave.
    destruct (type r) as [ty|] eqn:Hty;
      [|by unfold save, save_until_id in Hsave; rewrite Hty in Hsave].
    destruct (loadGraph st).1 as [g0| |] eqn:Hg0.
    + rewrite (save_load _ _ _ Hty) in Hsave.
      destruct (save_loaded _ _ _ _ (loadGraph_resolved _ _ Hg0) Hty)
        as (k & _ & Heq).
      simpl in Heq. rewrite Heq in Hsave. injection Hsave as Ho _ <-.
      apply persistGraph_resolves in Ho as [-> Hf]. simpl. eauto.
    + rewrite (save_not_loaded _ _ _ Hty) in Hsave; [by rewrite Hg0 in Hsave|].
      intros g1. by rewrite Hg0.
    + rewrite (save_not_loaded _ _ _ Hty) in Hsave; [by rewrite Hg0 in Hsave|].
      intros g1. by rewrite Hg0.
  - intros g st' Hdel.
    destruct (type r) as [ty|] eqn:Hty; [|by unfold delete in Hdel; rewrite Hty in Hdel].
    destruct (id r) as [k|] eqn:Hid;
      [|by unfold delete in Hdel; rewrite Hty, Hid in Hdel].
    rewrite (delete_load _ _ _ _ Hty Hid) in Hdel.
    destruct (loadGraph st).1 as [g0| |] eqn:Hg0.
    + rewrite (delete_loaded _ _ _ _ _ (loadGraph_resolved _ _ Hg0) Hty Hid) in Hdel.
      destruct (g0 !! ty) as [p|]; [|done]. simpl in Hdel.
      destruct (persistGraph _ _).1 as [g1| |] eqn:Ho; try done.
      injection Hdel as -> <-.
      apply persistGraph_resolves in Ho as [-> Hf]. simpl. eauto.
    + unfold delete in Hdel. rewrite Hty, Hid, loadGraph_idem in Hdel.
      destruct (loadGraph st) as [o st1]. simpl in Hg0. by subst o.
    + unfold delete in Hdel. rewrite Hty, Hid, loadGraph_idem in Hdel.
      destruct (loadGraph st) as [o st1]. simpl in Hg0. by subst o.
  - intros g0 Hp Hw. split.
    + intros [ty Hty].
      destruct (save_loaded _ _ _ _ Hp Hty) as (k & _ & Heq). simpl in Heq.
      rewrite Heq. unfold persistGraph at 1, writeFile. rewrite Hw. simpl.
      do 3 eexists. split; [done|]. simpl. intros ty' k' Hty' [= <-].
      assert (ty' = ty) as -> by congruence.
      unfold entry. rewrite lookup_insert_eq. simpl. rewrite pget_pset.
      by rewrite decide_True.
    + intros ty k Hty Hid [p Hpart].
      rewrite (delete_loaded _ _ _ _ _ Hp Hty Hid), Hpart. simpl.
      unfold persistGraph at 1, writeFile. rewrite Hw. simpl.
      do 2 eexists. split; [done|].
      unfold entry. rewrite lookup_insert_eq. simpl. rewrite pget_pdel.
      by rewrite decide_True.
Qed.

(** ** The first load *)

Lemma readFile_error d err : (readFile d).1 = inl err → ∃ code, err = FsError code.
Proof.
  unfold readFile. destruct (read_fault d (reads d)); simpl.
  - intros [= <-]. eauto.
  - destruct (file d); simpl; [done|]. intros [= <-]. eauto.
Qed.

Lemma readFile_writes d :
  writes (readFile d).2 = writes d ∧ write_fault (readFile d).2 = write_fault d.
Proof.
  unfold readFile. destruct (read_fault d (reads d)); [done|].
  by destruct (file d).
Qed.

Lemma loadDB_rejects d e : (loadDB d).1 = Reject e → ∃ code, e = FsError code.
Proof.
  unfold loadDB. destruct (readFile d) as [x d1] eqn:E.
  destruct x as [[msg|code]|content]; simpl.
  - intros _. by destruct (readFile_error d (Error msg)); [rewrite E|].
  - destruct (decide (code ≠ "ENOENT")); simpl; [intros [= <-]; eauto|].
    by destruct (persistGraph empty_object d1) as [[] ?].
  - by destruct (JSON_parse content).
Qed.

(** C5, amended: when the first read fails because the file is not there
    and the write that follows succeeds, the load resolves with the empty
    graph [{}] and the file holds its JSON text; when the read fails with
    any other code, nothing is written and the load, and with it the calling
    operation, rejects with that very error. *)
Theorem first_load_creates_or_rejects d :
  ((readFile d).1 = inl (FsError "ENOENT") →
   write_fault d (writes d) = None →
   (loadDB d).1 = Resolve empty_object
   ∧ file (loadDB d).2 = Some (JSON_stringify empty_object)
   ∧ (loadGraph (Store None d)).1 = Resolve empty_object)
  ∧ (∀ code,
       (readFile d).1 = inl (FsError code) →
       code ≠ "ENOENT" →
       (loadDB d).1 = Reject (FsError code)
       ∧ (loadDB d).2 = (readFile d).2
       ∧ writes (loadDB d).2 = writes d
       ∧ (∀ ty i, (find ty i (Store None d)).1 = Reject (FsError code))
       ∧ (∀ r, is_Some (type r) →
               (save r (Store None d)).1.1 = Reject (FsError code))
       ∧ (∀ r, is_Some (type r) → is_Some (id r) →
               (delete r (Store None d)).1 = Reject (FsError code))).
Proof.
  split.
  - intros Hread Hwrite.
    destruct (loadDB_creates d Hread Hwrite) as [Hdb Hfile].
    split_and!; [done..|]. by apply loadGraph_creates.
  - intros code Hread Hcode.
    assert (Hdb : loadDB d = (Reject (FsError code), (readFile d).2)).
    { unfold loadDB. destruct (readFile d) as [x d1]. simpl in *. subst x.
      by rewrite decide_True. }
    assert (Hlg : loadGraph (Store None d) =
                  (Reject (FsError code),
                   Store (Some (Reject (FsError code))) (readFile d).2)).
    { unfold loadGraph. simpl. by rewrite Hdb. }
    split_and!.
    + by rewrite Hdb.
    + by rewrite Hdb.
    + rewrite Hdb. simpl. apply readFile_writes.
    + intros ty i. unfold find. by rewrite Hlg.
    + intros r [ty Hty]. unfold save, save_until_id. by rewrite Hty, Hlg.
    + intros r [ty Hty] [k Hid]. unfold delete. by rewrite Hty, Hid, Hlg.
Qed.

(** ** The load promise along a run *)

Lemma loadDB_reads d : reads (loadDB d).2 = S (reads d).
Proof.
  unfold loadDB, readFile.
  destruct (read_fault d (reads d)) as [code|]; [|destruct (file d)]; simpl.
  - destruct (decide (code ≠ "ENOENT")); [done|].
    pose proof (persistGraph_reads empty_object
      (Fs (file d) (read_fault d) (write_fault d) (S (reads d)) (writes d))) as Hr.
    by destruct (persistGraph _ _) as [[] ?].
  - by destruct (JSON_parse _).
  - pose proof (persistGraph_reads empty_object
      (Fs None (read_fault d) (write_fault d) (S (reads d)) (writes d))) as Hr.
    by destruct (persistGraph _ _) as [[] ?].
Qed.

Lemma loadGraph_reads st :
  reads (disk (loadGraph st).2) =
  match promise st with
  | None => S (reads (disk st))
  | Some _ => reads (disk st)
  end.
Proof.
  unfold loadGraph. destruct (promise st); [done|].
  pose proof (loadDB_reads (disk st)). by destruct (loadDB (disk st)).
Qed.

Lemma loadGraph_rejects st e :
  (loadGraph st).1 = Reject e →
  promise st = Some (Reject e) ∨ ∃ code, e = FsError code.
Proof.
  unfold loadGraph. destruct (promise st) as [o|]; simpl; [by left; subst|].
  pose proof (loadDB_rejects (disk st) e). destruct (loadDB (disk st)). auto.
Qed.

Lemma exec_no_graph (c : call data) st : needs_graph c = false → exec c st = st.
Proof.
  destruct c as [ty i|r|r]; simpl; [done|..].
  - intros Hn%bool_decide_eq_false. unfold save, save_until_id.
    destruct (type r); [|done]. by destruct Hn.
  - intros Hn%andb_false_iff. unfold delete.
    destruct (type r); [|done]. destruct (id r); [|done].
    destruct Hn as [Hn%bool_decide_eq_false|Hn%bool_decide_eq_false];
      by destruct Hn.
Qed.

Lemma exec_load (c : call data) st :
  needs_graph c = true → exec c st = exec c (loadGraph st).2.
Proof.
  destruct c as [ty i|r|r]; simpl.
  - intros _. by rewrite find_load.
  - intros [ty Hty]%bool_decide_eq_true. by rewrite (save_load _ _ _ Hty).
  - intros [[ty Hty]%bool_decide_eq_true [k Hid]%bool_decide_eq_true]%andb_true_iff.
    by rewrite (delete_load _ _ _ _ Hty Hid).
Qed.

(** Once the promise is there, a call reads nothing; it leaves a rejected or
    pending promise alone and a resolved one resolved. *)
Lemma exec_settled (c : call data) st o :
  promise st = Some o →
  reads (disk (exec c st)) = reads (disk st)
  ∧ match o with
    | Resolve _ => ∃ g', promise (exec c st) = Some (Resolve g')
    | _ => exec c st = st
    end.
Proof.
  intros Hp. destruct (needs_graph c) eqn:Hn;
    [|rewrite (exec_no_graph _ _ Hn); destruct o; eauto].
  destruct c as [ty i|r|r]; simpl in *.
  - unfold find. rewrite (loadGraph_cached _ _ Hp).
    destruct o as [g| |]; simpl; [|done..].
    destruct (g !! ty); [destruct i|]; simpl; eauto.
  - apply bool_decide_eq_true in Hn as [ty Hty].
    destruct o as [g| |].
    + destruct (save_loaded _ _ _ _ Hp Hty) as (k & _ & ->). simpl.
      rewrite persistGraph_reads. eauto.
    + unfold save, save_until_id. by rewrite Hty, (loadGraph_cached _ _ Hp).
    + unfold save, save_until_id. by rewrite Hty, (loadGraph_cached _ _ Hp).
  - apply andb_true_iff in Hn as [[ty Hty]%bool_decide_eq_true [k Hid]%bool_decide_eq_true].
    destruct o as [g| |].
    + rewrite (delete_loaded _ _ _ _ _ Hp Hty Hid).
      destruct (g !! ty); simpl; [rewrite persistGraph_reads|]; eauto.
    + unfold delete. by rewrite Hty, Hid, (loadGraph_cached _ _ Hp).
    + unfold delete. by rewrite Hty, Hid, (loadGraph_cached _ _ Hp).
Qed.

Lemma exec_promise (c : call data) st :
  needs_graph c = true →
  is_Some (promise (exec c st))
  ∧ reads (disk (exec c st)) =
      match promise st with
      | None => S (reads (disk st))
      | Some _ => reads (disk st)
      end.
Proof.
  intros Hn. rewrite (exec_load _ _ Hn).
  destruct (exec_settled c _ _ (loadGraph_promise st)) as [Hr Ho].
  rewrite Hr, loadGraph_reads. split; [|done].
  destruct (loadGraph st).1 as [g| |] eqn:Hg.
  - destruct Ho as [g' ->]. eauto.
  - rewrite Ho, loadGraph_promise. eauto.
  - rewrite Ho, loadGraph_promise. eauto.
Qed.

(** A rejected load promise carries the error of the failed read. *)
Lemma reachable_rejected st e :
  reachable st → promise st = Some (Reject e) → ∃ code, e = FsError code.
Proof.
  intros Hr. revert e. induction Hr as [d|c st Hr IH]; intros e; [done|].
  destruct (needs_graph c) eqn:Hn; [|rewrite (exec_no_graph _ _ Hn); auto].
  rewrite (exec_load _ _ Hn).
  destruct (exec_settled c _ _ (loadGraph_promise st)) as [_ Ho].
  destruct (loadGraph st).1 as [g|e0|] eqn:Hg.
  - destruct Ho as [g' ->]. done.
  - rewrite Ho, loadGraph_promise, Hg. intros [= <-].
    destruct (loadGraph_rejects _ _ Hg); auto.
  - rewrite Ho, loadGraph_promise, Hg. done.
Qed.

(** ** Missing type *)

Lemma save_rejects st r ty e :
  type r = Some ty →
  (save r st).1.1 = Reject e →
  (loadGraph st).1 = Reject e ∨ ∃ code, e = FsError code.
Proof.
  intros Hty. rewrite (save_load _ _ _ Hty).
  destruct (loadGraph st).1 as [g|e0|] eqn:Hg.
  - destruct (save_loaded _ _ _ _ (loadGraph_resolved _ _ Hg) Hty) as (k & _ & ->).
    simpl. intros He%persistGraph_rejects. auto.
  - unfold save, save_until_id. rewrite Hty, loadGraph_idem.
    destruct (loadGraph st) as [o st1]. simpl in Hg. subst o. simpl.
    intros [= <-]. auto.
  - unfold save, save_until_id. rewrite Hty, loadGraph_idem.
    destruct (loadGraph st) as [o st1]. simpl in Hg. by subst o.
Qed.

Lemma delete_rejects st r ty e :
  type r = Some ty →
  (delete r st).1 = Reject e →
  (loadGraph st).1 = Reject e ∨ ∃ code, e = FsError code.
Proof.
  intros Hty. destruct (id r) as [k|] eqn:Hid;
    [|by unfold delete; rewrite Hty, Hid].
  rewrite (delete_load _ _ _ _ Hty Hid).
  destruct (loadGraph st).1 as [g|e0|] eqn:Hg.
  - rewrite (delete_loaded _ _ _ _ _ (loadGraph_resolved _ _ Hg) Hty Hid).
    destruct (g !! ty); [|done]. simpl.
    destruct (persistGraph _ _).1 eqn:Ho; try done.
    intros [= <-]. apply persistGraph_rejects in Ho. auto.
  - unfold delete. rewrite Hty, Hid, loadGraph_idem.
    destruct (loadGraph st) as [o st1]. simpl in Hg. subst o. simpl.
    intros [= <-]. auto.
  - unfold delete. rewrite Hty, Hid, loadGraph_idem.
    destruct (loadGraph st) as [o st1]. simpl in Hg. by subst o.
Qed.

(** C8: in every state of a process, [save] and [delete] reject with
    'resources must have a type' exactly when the resource has no type, and
    that rejection leaves the store (the load promise, the graph, the file
    and its read and write counts) and the resource as they were. *)
Theorem missing_type_rejected_without_effect st r :
  reachable st →
  ((save r st).1.1 = Reject (Error "resources must have a type")
   ↔ type r = None)
  ∧ ((delete r st).1 = Reject (Error "resources must have a type")
     ↔ type r = None)
  ∧ (type r = None →
     save r st = (Reject (Error "resources must have a type"), r, st)
     ∧ delete r st = (Reject (Error "resources must have a type"), st)).
Proof.
  intros Hr.
  assert (Hfs : ∀ e, (loadGraph st).1 = Reject e → ∃ code, e = FsError code).
  { intros e [He|He]%loadGraph_rejects; [|done]. eapply reachable_rejected; eauto. }
  assert (Hno : type r = None →
     save r st = (Reject (Error "resources must have a type"), r, st)
     ∧ delete r st = (Reject (Error "resources must have a type"), st)).
  { intros Hty. unfold save, save_until_id, delete. by rewrite Hty. }
  split_and!; [| |done].
  - split; [|by intros [-> _]%Hno].
    destruct (type r) as [ty|] eqn:Hty; [|done].
    intros [He|[code [=]]]%(save_rejects _ _ ty); [|done].
    by destruct (Hfs _ He).
  - split; [|by intros [_ ->]%Hno].
    destruct (type r) as [ty|] eqn:Hty; [|done].
    intros [He|[code [=]]]%(delete_rejects _ _ ty); [|done].
    by destruct (Hfs _ He).
Qed.

(** ** Reading the data file once *)

Lemma run_cons (c : call data) cs st : run (c :: cs) st = run cs (exec c st).
Proof. done. Qed.

Lemma steps_cons (e : event data) es l : steps (e :: es) l = steps es (step l e).
Proof. done. Qed.

Lemma run_started (cs : list (call data)) st :
  is_Some (promise st) →
  reads (disk (run cs st)) = reads (disk st) ∧ is_Some (promise (run cs st)).
Proof.
  revert st. induction cs as [|c cs IH]; intros st [o Ho]; [by eauto|].
  rewrite run_cons. destruct (exec_settled c _ _ Ho) as [Hr Hp].
  assert (Hs : is_Some (promise (exec c st))).
  { destruct o; [destruct Hp as [g' ->]|rewrite Hp..]; eauto. }
  destruct (IH _ Hs) as [-> ?]. by rewrite Hr.
Qed.

Lemma run_null_cases (cs : list (call data)) st :
  promise st = None →
  (run cs st = st ∧ ∀ c, c ∈ cs → needs_graph c = false)
  ∨ (reads (disk (run cs st)) = S (reads (disk st))
     ∧ is_Some (promise (run cs st))
     ∧ ∃ c, c ∈ cs ∧ needs_graph c = true).
Proof.
  revert st. induction cs as [|c cs IH]; intros st Hp.
  { left. split; [done|]. by intros c ?%elem_of_nil. }
  rewrite run_cons. destruct (needs_graph c) eqn:Hn.
  - right. destruct (exec_promise c st Hn) as [Hs Hr]. rewrite Hp in Hr.
    destruct (run_started cs _ Hs) as [-> ?]. split_and!; [done..|].
    exists c. split; [left|done].
  - rewrite (exec_no_graph _ _ Hn).
    destruct (IH _ Hp) as [[-> Hall]|(Hr & Hs & c' & Hin & Hc')].
    + left. split; [done|]. by intros c' [->|?]%elem_of_cons; auto.
    + right. split_and!; [done..|]. exists c'. split; [by right|done].
Qed.

Lemma steps_app (es1 es2 : list (event data)) l :
  steps (es1 ++ es2) l = steps es2 (steps es1 l).
Proof. apply foldl_app. Qed.

Lemma step_settled (e : event data) l o : shared l = Settled o → step l e = l.
Proof.
  intros Hl. destruct e as [c|o']; simpl; [|by rewrite Hl].
  destruct (needs_graph c); [|done]. unfold loadGraph_call. by rewrite Hl.
Qed.

Lemma steps_settled (es : list (event data)) l o :
  shared l = Settled o → steps es l = l.
Proof.
  induction es as [|e es IH]; [done|]. intros Hl.
  rewrite steps_cons, (step_settled _ _ _ Hl). auto.
Qed.

Lemma step_started (e : event data) l :
  shared l ≠ Null →
  disk_reads (step l e) = disk_reads l ∧ shared (step l e) ≠ Null.
Proof.
  intros Hl. destruct e as [c|o]; simpl.
  - destruct (needs_graph c); [|done]. unfold loadGraph_call.
    destruct l as [[| |o] n]; simpl in *; [congruence|done..].
  - destruct l as [[| |o'] n]; simpl in *; [congruence|done..].
Qed.

Lemma steps_started (es : list (event data)) l :
  shared l ≠ Null →
  disk_reads (steps es l) = disk_reads l ∧ shared (steps es l) ≠ Null.
Proof.
  revert l. induction es as [|e es IH]; intros l Hl; [done|].
  rewrite steps_cons. destruct (step_started e _ Hl) as [Hr Hs].
  destruct (IH _ Hs) as [-> ?]. by rewrite Hr.
Qed.

Lemma steps_null_cases (es : list (event data)) l :
  shared l = Null →
  (steps es l = l ∧ ∀ c, Call c ∈ es → needs_graph c = false)
  ∨ (disk_reads (steps es l) = S (disk_reads l)
     ∧ shared (steps es l) ≠ Null
     ∧ ∃ c, Call c ∈ es ∧ needs_graph c = true).
Proof.
  revert l. induction es as [|e es IH]; intros l Hl.
  { left. split; [done|]. by intros c ?%elem_of_nil. }
  rewrite steps_cons.
  destruct e as [c|o]; simpl.
  - destruct (needs_graph c) eqn:Hn.
    + right. unfold loadGraph_call. rewrite Hl.
      destruct (steps_started es (Loader InFlight (S (disk_reads l)))) as [-> ?];
        [done|]. split_and!; [done..|]. exists c. split; [left|done].
    + destruct (IH _ Hl) as [[-> Hall]|(Hr & Hs & c' & Hin & Hc')].
      * left. split; [done|]. intros c' [[= ->]|?]%elem_of_cons; auto.
      * right. split_and!; [done..|]. exists c'. split; [by right|done].
  - rewrite Hl.
    destruct (IH _ Hl) as [[-> Hall]|(Hr & Hs & c' & Hin & Hc')].
    + left. split; [done|]. intros c' [[=]|?]%elem_of_cons; auto.
    + right. split_and!; [done..|]. exists c'. split; [by right|done].
Qed.

(** C4, amended: a process reads the data file at most once. A call needs
    the graph when it is a [find], a [save] of a resource with a type, or a
    [delete] of a resource with a type and an id; the first call that needs
    the graph issues the one read, and no later call issues another. This
    holds for calls run one after the other and for calls that start while
    the read is in flight; once the promise is settled, every later moment
    sees the same outcome. *)
Theorem data_file_read_at_most_once :
  (∀ (d : fs text) (cs : list (call data)),
     let st := run cs (Store None d) in
     (reads (disk st) ≤ S (reads d))%nat
     ∧ (reads (disk st) = S (reads d)
        ↔ ∃ c, c ∈ cs ∧ needs_graph c = true))
  ∧ (∀ es : list (event data),
       let l := steps es (Loader Null 0) in
       (disk_reads l ≤ 1)%nat
       ∧ (disk_reads l = 1%nat ↔ ∃ c, Call c ∈ es ∧ needs_graph c = true)
       ∧ (∀ es1 c es2,
            es = es1 ++ Call c :: es2 →
            needs_graph c = true →
            (∀ c', Call c' ∈ es1 → needs_graph c' = false) →
            disk_reads (steps es1 (Loader Null 0)) = 0%nat
            ∧ disk_reads (steps (es1 ++ [Call c]) (Loader Null 0)) = 1%nat)
       ∧ (∀ es1 es2 o,
            es = es1 ++ es2 →
            shared (steps es1 (Loader Null 0)) = Settled o →
            shared l = Settled o)).
Proof.
  split.
  - intros d cs st.
    destruct (run_null_cases cs (Store None d) eq_refl)
      as [[Hst Hall]|(Hr & _ & Hex)]; subst st; simpl in *.
    + rewrite Hst. simpl. split; [lia|]. split; [lia|].
      intros (c & Hin & Hc). rewrite (Hall _ Hin) in Hc. done.
    + rewrite Hr. split; [lia|]. done.
  - intros es l. split_and!.
    + destruct (steps_null_cases es (Loader Null 0) eq_refl)
        as [[Hl _]|(Hr & _)]; subst l; [rewrite Hl|rewrite Hr]; simpl; lia.
    + destruct (steps_null_cases es (Loader Null 0) eq_refl)
        as [[Hl Hall]|(Hr & _ & Hex)]; subst l.
      * rewrite Hl. simpl. split; [done|].
        intros (c & Hin & Hc). rewrite (Hall _ Hin) in Hc. done.
      * rewrite Hr. done.
    + intros es1 c es2 _ Hc Hall.
      destruct (steps_null_cases es1 (Loader Null 0) eq_refl)
        as [[Hl _]|(_ & _ & c' & Hin & Hc')].
      * rewrite steps_app, Hl. simpl. by rewrite Hc.
      * rewrite (Hall _ Hin) in Hc'. done.
    + intros es1 es2 o -> Ho. subst l.
      by rewrite steps_app, (steps_settled _ _ _ Ho).
Qed.

(** * Further properties of the store *)

Lemma persistGraph_writes g d : writes (persistGraph g d).2 = S (writes d).
Proof.
  unfold persistGraph, writeFile. by destruct (write_fault d (writes d)).
Qed.

Lemma persistGraph_outcome g d :
  match write_fault d (writes d) with
  | Some code =>
      (persistGraph g d).1 = Reject (FsError code)
      ∧ file (persistGraph g d).2 = file d
  | None =>
      (persistGraph g d).1 = Resolve g
      ∧ file (persistGraph g d).2 = Some (JSON_stringify g)
  end.
Proof.
  unfold persistGraph, writeFile. by destruct (write_fault d (writes d)).
Qed.

Lemma entry_insert g ty ty' p k :
  entry (<[ty := p]> g) ty' k = if decide (ty = ty') then pget k p else entry g ty' k.
Proof.
  unfold entry. case_decide as Hty.
  - subst. by rewrite lookup_insert_eq.
  - by rewrite lookup_insert_ne.
Qed.

(** X1: whatever becomes of the write, the resource [save] returns carries
    its type, the resolved id and the fields given, [find] with that type
    and id resolves with it, and [save] made one write and no read beyond
    the load. *)
Theorem saved_resource_is_found st g r ty o r' st' :
  (loadGraph st).1 = Resolve g →
  type r = Some ty →
  save r st = (o, r', st') →
  ∃ k,
    id r' = Some k
    ∧ type r' = Some ty
    ∧ fields r' = fields r
    ∧ find ty (Some k) st' = (Resolve (One (Some r')), st')
    ∧ reads (disk st') = reads (disk (loadGraph st).2)
    ∧ writes (disk st') = S (writes (disk (loadGraph st).2)).
Proof.
  intros Hg Hty. rewrite (save_load _ _ _ Hty).
  destruct (save_loaded _ _ _ _ (loadGraph_resolved _ _ Hg) Hty) as (k & _ & ->).
  simpl. intros [= _ <- <-]. exists k. split_and!; try done.
  - unfold find. rewrite (loadGraph_cached _ (Resolve _)) by done.
    rewrite lookup_insert_eq, pget_pset. by rewrite decide_True.
  - simpl. apply persistGraph_reads.
  - simpl. apply persistGraph_writes.
Qed.

(** X3: [delete] of a resource with a type whose partition exists and with an
    id removes the entry under that id and nothing else: the other entries
    and the order of their keys stay, and the partition itself stays, even
    when it is left empty. It attempts exactly one write, whether or not the
    id was a key. *)
Theorem delete_removes_only_that_entry st g r ty k p o st' :
  (loadGraph st).1 = Resolve g →
  type r = Some ty →
  id r = Some k →
  g !! ty = Some p →
  delete r st = (o, st') →
  ∃ g',
    promise st' = Some (Resolve g')
    ∧ entry g' ty k = None
    ∧ (∀ ty' k', (ty', k') ≠ (ty, k) → entry g' ty' k' = entry g ty' k')
    ∧ dom g' = dom g
    ∧ (λ q : partition data, q.*1) <$> g' !! ty
      = Some (filter (λ k', k' ≠ k) p.*1)
    ∧ writes (disk st') = S (writes (disk (loadGraph st).2)).
Proof.
  intros Hg Hty Hid Hp. rewrite (delete_load _ _ _ _ Hty Hid).
  rewrite (delete_loaded _ _ _ _ _ (loadGraph_resolved _ _ Hg) Hty Hid), Hp.
  simpl. intros [= _ <-]. eexists. split_and!; try done.
  - rewrite entry_insert, decide_True by done. rewrite pget_pdel.
    by rewrite decide_True.
  - intros ty' k' Hne. rewrite entry_insert. case_decide as Hty'; [|done].
    subst ty'. rewrite pget_pdel, decide_False by congruence.
    unfold entry. by rewrite Hp.
  - apply dom_insert_lookup_L. by rewrite Hp.
  - rewrite lookup_insert_eq. simpl. by rewrite pdel_keys.
  - simpl. apply persistGraph_writes.
Qed.

Lemma pdel_absent k p : k ∉ p.*1 → pdel k p = p.
Proof.
  unfold pdel. induction p as [|[k0 r0] p IH]; [done|].
  rewrite fmap_cons, not_elem_of_cons. simpl. intros [Hne Hin].
  rewrite filter_cons. simpl. rewrite decide_True by congruence.
  by rewrite IH.
Qed.

(** X4: [delete] with an id that is no key of an existing partition leaves
    the graph as it is, yet rewrites the whole file: it resolves with the
    graph (not with [undefined]) when the write succeeds and rejects when it
    fails. *)
Theorem delete_of_absent_id_rewrites_file st g r ty k p :
  promise st = Some (Resolve g) →
  type r = Some ty →
  id r = Some k →
  g !! ty = Some p →
  k ∉ p.*1 →
  promise (delete r st).2 = Some (Resolve g)
  ∧ writes (disk (delete r st).2) = S (writes (disk st))
  ∧ match write_fault (disk st) (writes (disk st)) with
    | None =>
        (delete r st).1 = Resolve (Some g)
        ∧ file (disk (delete r st).2) = Some (JSON_stringify g)
    | Some code =>
        (delete r st).1 = Reject (FsError code)
        ∧ file (disk (delete r st).2) = file (disk st)
    end.
Proof.
  intros Hpr Hty Hid Hp Hk.
  rewrite (delete_loaded _ _ _ _ _ Hpr Hty Hid), Hp. simpl.
  rewrite (pdel_absent _ _ Hk), (insert_id _ _ _ Hp).
  split_and!; [done | apply persistGraph_writes |].
  pose proof (persistGraph_outcome g (disk st)) as Ho.
  destruct (write_fault (disk st) (writes (disk st))); destruct Ho as [-> ->];
    done.
Qed.

(** X5: [save] does not roll back. When the write fails, [save] rejects with
    the error of the write and the file keeps its content, but the resource
    has its id and is in the graph in memory, where [find] returns it. *)
Theorem save_failed_write_keeps_memory st g r ty code :
  promise st = Some (Resolve g) →
  type r = Some ty →
  write_fault (disk st) (writes (disk st)) = Some code →
  ∃ k g',
    (save r st).1.1 = Reject (FsError code)
    ∧ id (save r st).1.2 = Some k
    ∧ file (disk (save r st).2) = file (disk st)
    ∧ promise (save r st).2 = Some (Resolve g')
    ∧ entry g' ty k = Some (save r st).1.2
    ∧ (find ty (Some k) (save r st).2).1 = Resolve (One (Some (save r st).1.2)).
Proof.
  intros Hpr Hty Hw.
  destruct (save_loaded _ _ _ _ Hpr Hty) as (k & _ & Heq). simpl in Heq.
  rewrite Heq. simpl. exists k. eexists.
  match goal with |- context [persistGraph ?g0 _] =>
    pose proof (persistGraph_outcome g0 (disk st)) as Ho end.
  rewrite Hw in Ho. destruct Ho as [-> ->].
  split_and!; try done.
  - rewrite entry_insert, decide_True by done. rewrite pget_pset.
    by rewrite decide_True.
  - unfold find. rewrite (loadGraph_cached _ (Resolve _)) by done.
    rewrite lookup_insert_eq, pget_pset. by rewrite decide_True.
Qed.

(** X6: a load that never settles. When the data file is absent and the
    write that creates it fails, or when the file is there but is not JSON,
    the load promise neither resolves nor rejects: every call that needs the
    graph stays pending, the first one and all later ones, and the store does
    no further reading or writing. *)
Theorem load_that_never_settles d :
  read_fault d (reads d) = None →
  (file d = None ∧ is_Some (write_fault d (writes d)))
  ∨ (∃ content, file d = Some content ∧ JSON_parse content = None) →
  let st1 := (loadGraph (Store None d)).2 in
  promise st1 = Some Pending
  ∧ (∀ c, needs_graph c = true →
          exec c (Store None d) = st1 ∧ exec c st1 = st1)
  ∧ (∀ ty i, (find ty i (Store None d)).1 = Pending
             ∧ (find ty i st1).1 = Pending)
  ∧ (∀ r, is_Some (type r) →
          (save r (Store None d)).1.1 = Pending ∧ (save r st1).1.1 = Pending)
  ∧ (∀ r, is_Some (type r) → is_Some (id r) →
          (delete r (Store None d)).1 = Pending ∧ (delete r st1).1 = Pending).
Proof.
  intros Hr Hcase st1.
  assert (Hdb : (loadDB d).1 = Pending).
  { unfold loadDB, readFile. rewrite Hr.
    destruct Hcase as [[Hf [code Hw]]|(content & Hf & Hparse)]; rewrite Hf.
    - rewrite decide_False by (intros ?; done).
      unfold persistGraph, writeFile. simpl. by rewrite Hw.
    - by rewrite Hparse. }
  assert (Hst1 : promise st1 = Some Pending).
  { subst st1. by rewrite loadGraph_promise; unfold loadGraph; simpl;
      destruct (loadDB d) as [o ?]; simpl in *; subst o. }
  assert (Hlg : loadGraph (Store None d) = (Pending, st1)).
  { subst st1. unfold loadGraph. simpl. destruct (loadDB d) as [o ?].
    simpl in *. by subst o. }
  pose proof (loadGraph_cached _ _ Hst1) as Hlg1.
  split_and!; [done|..].
  - intros c Hc.
    destruct (exec_settled c _ _ Hst1) as [_ Hsame].
    split; [|done]. rewrite (exec_load _ _ Hc). by rewrite Hlg.
  - intros ty i. unfold find. by rewrite Hlg, Hlg1.
  - intros r [ty Hty]. unfold save, save_until_id. by rewrite Hty, Hlg, Hlg1.
  - intros r [ty Hty] [k Hid]. unfold delete. by rewrite Hty, Hid, Hlg, Hlg1.
Qed.

(** X7: on a loaded graph whose ids of the type are below 2^53,
    [generateUniqueID] resolves with an id that is no key of the type's
    partition, and that is greater than every id of the partition. *)
Theorem generateUniqueID_is_unused st g ty :
  (loadGraph st).1 = Resolve g →
  (∀ p k, g !! ty = Some p → k ∈ p.*1 → k < exact) →
  ∃ k,
    (generateUniqueID ty st).1 = Resolve k
    ∧ entry g ty k = None
    ∧ (∀ p k', g !! ty = Some p → k' ∈ p.*1 → k' < k).
Proof.
  intros Hg Hsafe. unfold generateUniqueID.
  destruct (loadGraph st) as [o st1]. simpl in Hg. subst o.
  unfold entry. destruct (g !! ty) as [p|] eqn:Hp; simpl.
  - rewrite (generated_exact p) by eauto.
    assert (Hlt : ∀ k', k' ∈ p.*1 → k' < foldr N.max 0 p.*1 + 1).
    { intros k' Hin%max_ge. lia. }
    eexists. split_and!; [done| |by intros ? ? [= <-]; auto].
    apply pget_None. intros Hin%Hlt. lia.
  - exists 0. split_and!; [done..|]. by intros.
Qed.

(** X8: ids are reused. After the resource with the greatest id [m] of a
    partition is deleted, the next resource saved without an id is given an
    id that is at most [m]: an id that has been in use before. The ids are
    below 2^53; beyond, the rounding of [Number] can give an id above [m]
    ([id_above_the_greatest_beyond_exact]). *)
Theorem id_reused_after_deleting_the_greatest st g ty p m rm rn :
  (loadGraph st).1 = Resolve g →
  g !! ty = Some p →
  m ∈ p.*1 →
  0 < m →
  m < exact →
  (∀ k, k ∈ p.*1 → k ≤ m) →
  type rm = Some ty → id rm = Some m →
  type rn = Some ty → id rn = None →
  ∃ k, id (save rn (delete rm st).2).1.2 = Some k ∧ 0 < k ≤ m.
Proof.
  intros Hg Hp Hm Hpos Hsafe Hmax Htm Him Htn Hin.
  rewrite (delete_load _ _ _ _ Htm Him).
  rewrite (delete_loaded _ _ _ _ _ (loadGraph_resolved _ _ Hg) Htm Him), Hp.
  simpl.
  match goal with |- context [save rn ?s] =>
    destruct (save_loaded s (<[ty:=pdel m p]> g) rn ty eq_refl Htn)
      as (k & Hk & ->) end.
  simpl. exists k. split; [done|].
  rewrite Hin, lookup_insert_eq in Hk. simpl in Hk. subst k.
  rewrite generated_exact.
  2:{ intros k. rewrite pdel_keys. intros [_ Hk%Hmax]%list_elem_of_filter. lia. }
  rewrite pdel_keys. split; [lia|].
  assert (foldr N.max 0 (filter (λ k', k' ≠ m) p.*1) < m); [|lia].
  apply max_lt; [done|].
  intros k [Hne Hk]%list_elem_of_filter. apply Hmax in Hk. lia.
Qed.

Lemma find_state ty i st : (find ty i st).2 = (loadGraph st).2.
Proof.
  unfold find. destruct (loadGraph st) as [[g| |] st1]; simpl; [|done..].
  destruct (g !! ty); [by destruct i | done].
Qed.

(** X10: [find] only loads. A run of [find] calls, whatever types and ids
    they ask for and whether they resolve or reject, leaves the store as the
    load alone leaves it; and the load of a data file that is there and
    parses reads it once and writes nothing. *)
Theorem finds_do_nothing_but_load (qs : list (string * option N)) st :
  qs ≠ [] →
  run ((λ q, Find q.1 q.2) <$> qs) st = (loadGraph st).2
  ∧ (∀ content g,
       promise st = None →
       read_fault (disk st) (reads (disk st)) = None →
       file (disk st) = Some content →
       JSON_parse content = Some g →
       (loadGraph st).2 =
         Store (Some (Resolve g))
           (Fs (Some content) (read_fault (disk st)) (write_fault (disk st))
               (S (reads (disk st))) (writes (disk st)))).
Proof.
  intros Hqs. split.
  - destruct qs as [|q qs]; [done|]. clear Hqs. rewrite fmap_cons, run_cons.
    simpl. rewrite find_state.
    assert (Hidem : ∀ st0, is_Some (promise st0) → (loadGraph st0).2 = st0).
    { intros st0 [o Ho]. by rewrite (loadGraph_cached _ _ Ho). }
    assert (Hs : is_Some (promise (loadGraph st).2))
      by (rewrite loadGraph_promise; eauto).
    revert Hs. generalize (loadGraph st).2. clear st.
    induction qs as [|q' qs IH]; intros st Hs; [done|].
    rewrite fmap_cons, run_cons. simpl. rewrite find_state, (Hidem _ Hs).
    by apply IH.
  - intros content g Hp Hr Hf Hparse. unfold loadGraph. rewrite Hp.
    unfold loadDB, readFile. by rewrite Hr, Hf, Hparse.
Qed.

Lemma preplace_absent k r p : pget k p = None → preplace k r p = p.
Proof.
  induction p as [|[k0 r0] p IH]; simpl; [done|].
  destruct (decide (k0 = k)); [done|]. intros Hk. by rewrite IH.
Qed.

Lemma preplace_idem k r p : preplace k r (preplace k r p) = preplace k r p.
Proof.
  induction p as [|[k0 r0] p IH]; simpl; [done|].
  rewrite IH. by destruct (decide (k0 = k)).
Qed.

Lemma preplace_app k r p q :
  preplace k r (p ++ q) = preplace k r p ++ preplace k r q.
Proof. induction p as [|[k0 r0] p IH]; simpl; [done | by rewrite IH]. Qed.

Lemma pset_pset k r p : pset k r (pset k r p) = pset k r p.
Proof.
  unfold pset at 1. rewrite pget_pset, decide_True by done.
  unfold pset. destruct (pget k p) eqn:Hk.
  - apply preplace_idem.
  - rewrite preplace_app, (preplace_absent _ _ _ Hk). simpl.
    by rewrite decide_True.
Qed.

(** X11: saving again what [save] returned changes nothing: the resource
    keeps its id and the graph in memory stays the same. *)
Theorem save_again_changes_nothing st g r ty o r' st' :
  (loadGraph st).1 = Resolve g →
  type r = Some ty →
  save r st = (o, r', st') →
  (save r' st').1.2 = r' ∧ promise (save r' st').2 = promise st'.
Proof.
  intros Hg Hty. rewrite (save_load _ _ _ Hty).
  destruct (save_loaded _ _ _ _ (loadGraph_resolved _ _ Hg) Hty) as (k & _ & ->).
  simpl. intros [= _ <- <-].
  match goal with |- context [save ?r1 ?s1] =>
    destruct (save_loaded s1 _ r1 ty eq_refl Hty) as (k2 & Hk2 & ->) end.
  simpl in *. rewrite lookup_insert_eq in Hk2. simpl in Hk2.
  rewrite pget_pset, decide_True in Hk2 by done. subst k2.
  rewrite lookup_insert_eq. simpl. split; [done|].
  by rewrite pset_pset, insert_insert_eq.
Qed.

(** X12: a partition outlives its resources. On a graph on which a type is
    undefined ([graph[type] === undefined]), [find] of the type rejects;
    once a first resource of the type has been saved and deleted again, the
    partition is there and empty, and [find] of the type resolves with the
    empty array. *)
Theorem partition_survives_its_last_resource st g r ty o r' st' :
  (loadGraph st).1 = Resolve g →
  object g →
  g !! ty = None →
  type r = Some ty →
  save r st = (o, r', st') →
  (find ty None st).1 = Reject (Error "unrecognized type")
  ∧ (find ty None (delete r' st').2).1 = Resolve (Many []).
Proof.
  intros Hg _ Hnone Hty Hsave. split.
  { unfold find. destruct (loadGraph st) as [o1 st1]. simpl in Hg. subst o1.
    by rewrite Hnone. }
  revert Hsave. rewrite (save_load _ _ _ Hty).
  destruct (save_loaded _ _ _ _ (loadGraph_resolved _ _ Hg) Hty) as (k & _ & ->).
  simpl. rewrite Hnone. simpl. intros [= _ <- <-].
  match goal with |- context [delete ?r1 ?s1] =>
    rewrite (delete_loaded s1 _ r1 ty k eq_refl Hty eq_refl) end.
  rewrite lookup_insert_eq. simpl.
  unfold find. rewrite (loadGraph_cached _ (Resolve _)) by done.
  rewrite lookup_insert_eq. unfold pdel, pset. simpl.
  rewrite filter_cons, decide_False by (simpl; intros ?; done).
  done.
Qed.

(** X19: on a loaded graph, [find] rejects with 'unrecognized type' exactly
    when the type is undefined on the graph, which it never is for the name
    of an inherited member; for a type that is defined and an id that is no
    property of its partition, own or inherited from [Object.prototype],
    [find] resolves with [undefined]. *)
Theorem find_rejects_exactly_undefined_type st g ty i :
  (loadGraph st).1 = Resolve g →
  object g →
  ((find ty i st).1 = Reject (Error "unrecognized type") ↔ g !! ty = None)
  ∧ (ty ∈ Object_prototype →
     (find ty i st).1 ≠ Reject (Error "unrecognized type"))
  ∧ (∀ p k,
       g !! ty = Some p → i = Some k →
       k ∉ p.*1 → entry g "__proto__" k = None →
       (find ty i st).1 = Resolve (One None)).
Proof.
  intros Hg Hobj. unfold find. destruct (loadGraph st) as [o st1].
  simpl in Hg. subst o. split_and!.
  - destruct (g !! ty) as [p|]; [|done]. by destruct i.
  - intros [p Hp]%Hobj. rewrite Hp. by destruct i.
  - intros p k -> -> Hk%pget_None _. simpl. by rewrite Hk.
Qed.

(** X20: [delete] of a resource with an id whose type is the name of an
    inherited member is no no-op, although the graph has no partition of
    that name: it attempts a write of the whole file, and resolves with the
    graph when the write succeeds. *)
Theorem delete_of_inherited_member_rewrites_file st g r name k :
  promise st = Some (Resolve g) →
  object g →
  name ∈ Object_prototype →
  type r = Some name →
  id r = Some k →
  writes (disk (delete r st).2) = S (writes (disk st))
  ∧ (delete r st).1 ≠ Resolve None
  ∧ (write_fault (disk st) (writes (disk st)) = None →
     ∃ g', (delete r st).1 = Resolve (Some g')
           ∧ promise (delete r st).2 = Some (Resolve g')
           ∧ file (disk (delete r st).2) = Some (JSON_stringify g')).
Proof.
  intros Hp Hobj [p Hname]%Hobj Hty Hid.
  rewrite (delete_loaded _ _ _ _ _ Hp Hty Hid), Hname. simpl.
  split_and!.
  - apply persistGraph_writes.
  - by destruct (persistGraph _ _).1.
  - intros Hw.
    match goal with |- context [persistGraph ?g0 _] =>
      pose proof (persistGraph_outcome g0 (disk st)) as Ho end.
    rewrite Hw in Ho. destruct Ho as [-> ->]. eauto.
Qed.

End Proofs.

(** * The tasks of the application

    The statements above at concrete stores. *)

(** An equation between closed terms, decided by evaluating both sides. *)
Ltac by_computation :=
  lazymatch goal with
  | |- @eq ?T ?a ?b => vm_cast_no_check (@eq_refl T b)
  end.


(** The scenario of the specification, as the code runs it: the ids are 1, 2
    and then 3. *)
Example tasks_scenario :
  let st1 := (save (new_task "A") first_run).2 in
  let st2 := (save (new_task "B") st1).2 in
  let st3 := (delete (stored_task 1 "A") st2).2 in
  id (save (new_task "A") first_run).1.2 = Some 1
  ∧ id (save (new_task "B") st1).1.2 = Some 2
  ∧ (find "tasks" None st3).1 = Resolve (Many [Some (stored_task 2 "B")])
  ∧ id (save (new_task "C") st3).1.2 = Some 3
  ∧ file (disk st3) = Some {[ "tasks" := [(2, stored_task 2 "B")] ]}
  ∧ reads (disk st3) = 1%nat.
Proof. intros. split_and!; by_computation. Qed.

Lemma save_first_of_type_assigns_1_witness :
  (loadGraph first_run).1 = Resolve empty_object
  ∧ id (save (new_task "A") first_run).1.2 = Some 1.
Proof.
  assert (H : (loadGraph first_run).1 = Resolve empty_object)
    by by_computation.
  split; [exact H|].
  apply (save_first_of_type_assigns_1 first_run empty_object (new_task "A")
           "tasks" H); [reflexivity | reflexivity | by_computation].
Defined.

(** The claim C2 fails from 2^53 on, where adding 1 to a number may leave it
    as it is: the new task is given the id 2^53 that task A has, and
    replaces it. It also fails for two [save]s in flight together: both are
    given the id 2, and C replaces B. *)
Lemma save_fresh_id_is_max_plus_one_counterexample :
  let g := tasks [(9007199254740992, stored_task 9007199254740992 "A")] in
  let st := loaded (tasks [(1, stored_task 1 "A")]) in
  let b := save_until_id (new_task "B") st in
  let c := save_until_id (new_task "C") b.2 in
  let st' := (save_from_id (new_task "C") 2
                (save_from_id (new_task "B") 2 c.2).2).2 in
  (id (save (new_task "B") (loaded g)).1.2 = Some 9007199254740992
   ∧ (find "tasks" None (save (new_task "B") (loaded g)).2).1
     = Resolve (Many [Some (stored_task 9007199254740992 "B")]))
  ∧ (b.1 = Resolve 2
     ∧ c.1 = Resolve 2
     ∧ (find "tasks" None st').1
       = Resolve (Many [Some (stored_task 1 "A"); Some (stored_task 2 "C")])).
Proof. intros. split_and!; by_computation. Qed.

Lemma save_fresh_id_is_max_plus_one_witness :
  let g := tasks [(2, stored_task 2 "B"); (5, stored_task 5 "E")] in
  ∃ m,
    m ∈ [2; 5]
    ∧ (∀ k, k ∈ [2; 5] → k ≤ m)
    ∧ id (save (stored_task 3 "C") (loaded g)).1.2 = Some (m + 1)
    ∧ (∀ k, k ≤ m → id (save (stored_task 3 "C") (loaded g)).1.2 ≠ Some k).
Proof.
  intros g.
  assert (Hsafe : ∀ k, k ∈ [(2, stored_task 2 "B"); (5, stored_task 5 "E")].*1
                       → k < exact).
  { intros k [->|[->|[]%elem_of_nil]%elem_of_cons]%elem_of_cons; reflexivity. }
  assert (Hnew : 3 ∉ [(2, stored_task 2 "B"); (5, stored_task 5 "E")].*1).
  { intros [[=]|[[=]|[]%elem_of_nil]%elem_of_cons]%elem_of_cons. }
  assert (Hproto : entry g "__proto__" 3 = None) by by_computation.
  apply (save_fresh_id_is_max_plus_one (loaded g) g (stored_task 3 "C") "tasks"
           [(2, stored_task 2 "B"); (5, stored_task 5 "E")]).
  - reflexivity.
  - reflexivity.
  - by_computation.
  - discriminate.
  - exact Hsafe.
  - right. exists 3. split_and!; [reflexivity | exact Hnew | exact Hproto].
Defined.

Lemma save_existing_overwrites_in_place_witness :
  let g := tasks [(1, stored_task 1 "A"); (2, stored_task 2 "B")] in
  let r := stored_task 2 "B, renamed" in
  let r' := (save r (loaded g)).1.2 in
  let st' := (save r (loaded g)).2 in
  id r' = Some 2
  ∧ r' = r
  ∧ ∃ g',
      promise st' = Some (Resolve g')
      ∧ entry g' "tasks" 2 = Some r'
      ∧ (∀ ty' k', (ty', k') ≠ ("tasks", 2) → entry g' ty' k' = entry g ty' k')
      ∧ (∀ ty', fmap fst <$> g' !! ty' = fmap fst <$> g !! ty').
Proof.
  intros g r r' st'.
  apply (save_existing_overwrites_in_place (loaded g) g r "tasks" 2
           [(1, stored_task 1 "A"); (2, stored_task 2 "B")]
           (save r (loaded g)).1.1 r' st').
  - reflexivity.
  - reflexivity.
  - reflexivity.
  - by_computation.
  - right. left.
  - by_computation.
Defined.

Lemma data_file_read_at_most_once_counterexample :
  let st := exec (Delete (new_task "A")) first_run in
  promise st = None
  ∧ reads (disk st) = 0%nat
  ∧ steps [Call (Delete (new_task "A"))] (Loader Null 0) = Loader Null 0.
Proof. intros. split_and!; by_computation. Qed.

(** The claim C5 fails when the data file is absent and cannot be created
    (here on a read-only volume): nothing is written and the load neither
    resolves with [{}] nor rejects. *)
Lemma first_load_creates_or_rejects_counterexample :
  let d := readonly None in
  (readFile d).1 = inl (FsError "ENOENT")
  ∧ (loadDB d).1 = Pending
  ∧ file (loadDB d).2 = None
  ∧ (loadGraph (Store None d)).1 = Pending
  ∧ (find "tasks" None (Store None d)).1 = Pending.
Proof. intros. split_and!; by_computation. Qed.

Lemma first_load_creates_or_rejects_witness :
  ((loadDB (healthy None)).1 = Resolve empty_object
   ∧ file (loadDB (healthy None)).2 = Some (JSON_stringify empty_object)
   ∧ (loadGraph (Store None (healthy None))).1 = Resolve empty_object)
  ∧ (loadDB unreadable).1 = Reject (FsError "EACCES")
  ∧ writes (loadDB unreadable).2 = 0%nat
  ∧ (find "tasks" None (Store None unreadable)).1 = Reject (FsError "EACCES")
  ∧ (save (new_task "A") (Store None unreadable)).1.1
      = Reject (FsError "EACCES")
  ∧ (delete (stored_task 1 "A") (Store None unreadable)).1
      = Reject (FsError "EACCES").
Proof.
  split.
  - apply (first_load_creates_or_rejects (healthy None)); reflexivity.
  - destruct (first_load_creates_or_rejects unreadable) as [_ H].
    destruct (H "EACCES" eq_refl ltac:(discriminate))
      as (H1 & _ & H3 & H4 & H5 & H6).
    split_and!; [exact H1 | exact H3 | apply H4 | apply H5 | apply H6];
      simpl; eauto.
Defined.

Lemma find_resolves_for_inherited_member_witness :
  (loadGraph first_run).1 = Resolve empty_object
  ∧ (find "tasks" None first_run).1 = Reject (Error "unrecognized type")
  ∧ (find "constructor" None first_run).1 = Resolve (Many [])
  ∧ (find "toString" (Some 1) first_run).1 = Resolve (One None).
Proof.
  destruct (find_resolves_for_inherited_member (healthy None) eq_refl eq_refl)
    as (Hg & Hother & Hinherited).
  assert (H1 : "tasks" ∉ Object_prototype)
    by (apply (bool_decide_unpack _); vm_compute; exact I).
  assert (H2 : "constructor" ∈ Object_prototype) by left.
  assert (H3 : "toString" ∈ Object_prototype)
    by (apply (bool_decide_unpack _); vm_compute; exact I).
  split_and!; [exact Hg | exact (Hother "tasks" None H1)
               | exact (proj1 (Hinherited "constructor" H2))
               | exact (proj2 (Hinherited "toString" H3) 1)].
Defined.

(** The claim C7 fails for a data file whose tasks were not created in the
    order of their ids: task 10 was created before task 9, and [find]
    lists task 9 first. *)
Lemma find_all_lists_partition_counterexample :
  let p := [(10, stored_task 10 "A"); (9, stored_task 9 "B")] in
  let st := Store None (healthy (Some {[ "tasks" := p ]})) in
  (loadGraph st).1 = Resolve (tasks p)
  ∧ p.*2 = [stored_task 10 "A"; stored_task 9 "B"]
  ∧ (find "tasks" None st).1
    = Resolve (Many [Some (stored_task 9 "B"); Some (stored_task 10 "A")]).
Proof. intros. split_and!; by_computation. Qed.

Lemma find_all_lists_partition_witness :
  let p := [(10, stored_task 10 "A"); (9, stored_task 9 "B");
            (11, stored_task 11 "C")] in
  let st := loaded (tasks p) in
  ∃ small rs,
    (find "tasks" None st).1 = Resolve (Many (Some <$> rs))
    ∧ StronglySorted N.lt small
    ∧ small ≡ₚ filter (λ k, k < max_index) p.*1
    ∧ Forall2 (λ k r, (k, r) ∈ p)
        (small ++ filter (λ k, ¬ k < max_index) p.*1) rs
    ∧ rs ≡ₚ p.*2
    ∧ (∀ k r, (k, r) ∈ p → (find "tasks" (Some k) st).1 = Resolve (One (Some r)))
    ∧ (StronglySorted N.lt p.*1 → rs = p.*2).
Proof.
  intros p st.
  assert (Hnd : NoDup p.*1)
    by (apply (bool_decide_unpack _); vm_compute; exact I).
  apply (find_all_lists_partition st (tasks p) "tasks" p).
  - reflexivity.
  - by_computation.
  - exact Hnd.
Defined.

Lemma missing_type_rejected_without_effect_witness :
  let r := mkResource None None (Task "A" []) in
  ((save r first_run).1.1 = Reject (Error "resources must have a type")
   ↔ type r = None)
  ∧ ((delete r first_run).1 = Reject (Error "resources must have a type")
     ↔ type r = None)
  ∧ (type r = None →
     save r first_run = (Reject (Error "resources must have a type"), r, first_run)
     ∧ delete r first_run = (Reject (Error "resources must have a type"), first_run)).
Proof.
  intros r.
  apply (missing_type_rejected_without_effect first_run r).
  apply reachable_start.
Defined.

(** The claim C9 fails for the [delete] that is the first call of a first
    run: the type has no partition and [delete] resolves with [undefined],
    but the load it triggers has created the data file. *)
Lemma delete_without_id_or_partition_is_noop_counterexample :
  let out := delete (stored_task 1 "A") first_run in
  (loadGraph first_run).1 = Resolve empty_object
  ∧ empty_object (data:=task) !! "tasks" = None
  ∧ out.1 = Resolve None
  ∧ file (disk first_run) = None
  ∧ writes (disk first_run) = 0%nat
  ∧ file (disk out.2) = Some ∅
  ∧ writes (disk out.2) = 1%nat.
Proof. intros. split_and!; by_computation. Qed.

Lemma delete_without_id_or_partition_is_noop_witness :
  let g := tasks [(2, stored_task 2 "B")] in
  let note := mkResource (Some "notes") (Some 7) (Task "N" []) in
  delete (new_task "A") first_run = (Resolve None, first_run)
  ∧ delete (new_task "A") (loaded g) = (Resolve None, loaded g)
  ∧ delete note (loaded g) = (Resolve None, loaded g)
  ∧ delete note first_run = (Resolve None, (loadGraph first_run).2).
Proof.
  intros g note.
  assert (Hg : g !! "notes" = None) by by_computation.
  assert (H0 : (loadGraph first_run).1 = Resolve empty_object)
    by by_computation.
  assert (He : empty_object (data:=task) !! "notes" = None)
    by by_computation.
  assert (Ho : object g) by apply object_insert, object_empty.
  split_and!.
  - exact (proj1 (delete_without_id_or_partition_is_noop first_run
                    (new_task "A") "tasks" eq_refl) eq_refl).
  - exact (proj1 (delete_without_id_or_partition_is_noop (loaded g)
                    (new_task "A") "tasks" eq_refl) eq_refl).
  - exact (proj1 (proj2 (delete_without_id_or_partition_is_noop (loaded g)
                           note "notes" eq_refl)) 7 g eq_refl eq_refl Ho Hg).
  - exact (proj2 (proj2 (delete_without_id_or_partition_is_noop first_run
                           note "notes" eq_refl)) 7 empty_object eq_refl H0
                    object_empty He).
Defined.

(** The claim C10 fails after a [save] whose write failed: the task B is in
    the graph in memory and not in the file, and a [delete] that then
    resolves (here of a resource without id) leaves it so; a new process
    loads the graph without B. It also fails for what JSON cannot write: a
    field [NaN] is read back as [null]. *)
Lemma persisted_file_mirrors_graph_counterexample :
  let g := tasks [(1, stored_task 1 "A")] in
  let g' := tasks [(1, stored_task 1 "A"); (2, stored_task 2 "B")] in
  let st := Store (Some (Resolve g)) (readonly (Some (JSON_stringify g))) in
  let st1 := (save (new_task "B") st).2 in
  let out := delete (new_task "B") st1 in
  let r := mkResource (Some "readings") None NaN in
  let saved := save r (Store None (Fs None (λ _, None) (λ _, None) 0 0)) in
  let reloaded :=
    loadGraph (Store None (Fs (file (disk saved.2)) (λ _, None) (λ _, None) 0 0)) in
  ((save (new_task "B") st).1.1 = Reject (FsError "EROFS")
   ∧ out.1 = Resolve None
   ∧ promise out.2 = Some (Resolve g')
   ∧ file (disk out.2) = Some (JSON_stringify g)
   ∧ JSON_stringify g !! "tasks" ≠ JSON_stringify g' !! "tasks"
   ∧ (loadGraph (Store None (healthy (file (disk out.2))))).1 = Resolve g)
  ∧ (saved.1.1
     = Resolve (<["readings" := [(1, mkResource (Some "readings") (Some 1) NaN)]]>
                  empty_object)
     ∧ reloaded.1
       = Resolve (<["readings" := [(1, mkResource (Some "readings") (Some 1) null)]]>
                    empty_object)).
Proof.
  intros. split; split_and!; try by_computation.
  vm_compute. discriminate.
Qed.

Lemma persisted_file_mirrors_graph_witness :
  let g := tasks [(1, stored_task 1 "A")] in
  let r := stored_task 1 "A, renamed" in
  let g1 := tasks [(1, r)] in
  let g2 := tasks [] in
  let st1 := (save r (loaded g)).2 in
  let st2 := (delete r (loaded g)).2 in
  (save r (loaded g) = (Resolve g1, r, st1)
   ∧ promise st1 = Some (Resolve g1)
   ∧ file (disk st1) = Some (JSON_stringify g1)
   ∧ (loadGraph (Store None (healthy (file (disk st1))))).1 = Resolve g1)
  ∧ (delete r (loaded g) = (Resolve (Some g2), st2)
     ∧ promise st2 = Some (Resolve g2)
     ∧ file (disk st2) = Some (JSON_stringify g2)
     ∧ (loadGraph (Store None (healthy (file (disk st2))))).1 = Resolve g2)
  ∧ (∃ g' r' st',
       save r (loaded g) = (Resolve g', r', st')
       ∧ ∀ ty k, type r' = Some ty → id r' = Some k → entry g' ty k = Some r')
  ∧ (∃ g' st',
       delete r (loaded g) = (Resolve (Some g'), st')
       ∧ entry g' "tasks" 1 = None).
Proof.
  intros g r g1 g2 st1 st2.
  destruct (persisted_file_mirrors_graph (loaded g) r) as (Hs & Hd & Hex).
  destruct (Hex g eq_refl eq_refl) as [Hsave Hdelete].
  assert (E1 : save r (loaded g) = (Resolve g1, r, st1)) by by_computation.
  assert (E2 : delete r (loaded g) = (Resolve (Some g2), st2)) by by_computation.
  assert (P1 : JSON_parse (JSON_stringify g1) = Some g1) by by_computation.
  assert (P2 : JSON_parse (JSON_stringify g2) = Some g2) by by_computation.
  split; [|split; [|split]].
  - split; [exact E1|]. destruct (Hs g1 r st1 E1) as (Hp & Hf & Hreload).
    split; [exact Hp|]. split; [exact Hf|].
    exact (Hreload P1 (healthy (file (disk st1))) eq_refl eq_refl).
  - split; [exact E2|]. destruct (Hd g2 st2 E2) as (Hp & Hf & Hreload).
    split; [exact Hp|]. split; [exact Hf|].
    exact (Hreload P2 (healthy (file (disk st2))) eq_refl eq_refl).
  - apply Hsave. by eexists.
  - apply (Hdelete "tasks" 1 eq_refl eq_refl). by eexists.
Defined.

(** ** Further properties, at concrete stores *)

Lemma saved_resource_is_found_witness :
  let st' := (save (new_task "A") first_run).2 in
  let r' := (save (new_task "A") first_run).1.2 in
  ∃ k,
    id r' = Some k
    ∧ type r' = Some "tasks"
    ∧ fields r' = fields (new_task "A")
    ∧ find "tasks" (Some k) st' = (Resolve (One (Some r')), st')
    ∧ reads (disk st') = reads (disk (loadGraph first_run).2)
    ∧ writes (disk st') = S (writes (disk (loadGraph first_run).2)).
Proof.
  intros st' r'.
  apply (saved_resource_is_found first_run empty_object (new_task "A") "tasks"
           (save (new_task "A") first_run).1.1 r' st').
  - by_computation.
  - reflexivity.
  - by_computation.
Defined.

Lemma delete_removes_only_that_entry_witness :
  let p := [(1, stored_task 1 "A"); (2, stored_task 2 "B")] in
  let g := tasks p in
  let st' := (delete (stored_task 1 "A") (loaded g)).2 in
  ∃ g',
    promise st' = Some (Resolve g')
    ∧ entry g' "tasks" 1 = None
    ∧ (∀ ty' k', (ty', k') ≠ ("tasks", 1) → entry g' ty' k' = entry g ty' k')
    ∧ dom g' = dom g
    ∧ (λ q : partition task, q.*1) <$> g' !! "tasks"
      = Some (filter (λ k', k' ≠ 1) p.*1)
    ∧ writes (disk st') = S (writes (disk (loadGraph (loaded g)).2)).
Proof.
  intros p g st'.
  apply (delete_removes_only_that_entry (loaded g) g (stored_task 1 "A")
           "tasks" 1 p (delete (stored_task 1 "A") (loaded g)).1 st').
  - reflexivity.
  - reflexivity.
  - reflexivity.
  - by_computation.
  - by_computation.
Defined.

Lemma delete_of_absent_id_rewrites_file_witness :
  let g := tasks [(2, stored_task 2 "B")] in
  let out := delete (stored_task 7 "ghost") (loaded g) in
  promise out.2 = Some (Resolve g)
  ∧ writes (disk out.2) = 1%nat
  ∧ out.1 = Resolve (Some g)
  ∧ file (disk out.2) = Some (JSON_stringify g).
Proof.
  intros g out.
  assert (Hp : g !! "tasks" = Some [(2, stored_task 2 "B")])
    by by_computation.
  assert (Hk : 7 ∉ [(2, stored_task 2 "B")].*1)
    by (intros [[=]|[]%elem_of_nil]%elem_of_cons).
  destruct (delete_of_absent_id_rewrites_file (loaded g) g
              (stored_task 7 "ghost") "tasks" 7 [(2, stored_task 2 "B")]
              eq_refl eq_refl eq_refl Hp Hk)
    as (H1 & H2 & H3 & H4).
  split_and!; [exact H1 | exact H2 | exact H3 | exact H4].
Defined.

Lemma save_failed_write_keeps_memory_witness :
  let g := tasks [(2, stored_task 2 "B")] in
  let st := Store (Some (Resolve g)) (readonly (Some (JSON_stringify g))) in
  ∃ k g',
    (save (new_task "C") st).1.1 = Reject (FsError "EROFS")
    ∧ id (save (new_task "C") st).1.2 = Some k
    ∧ file (disk (save (new_task "C") st).2) = file (disk st)
    ∧ promise (save (new_task "C") st).2 = Some (Resolve g')
    ∧ entry g' "tasks" k = Some (save (new_task "C") st).1.2
    ∧ (find "tasks" (Some k) (save (new_task "C") st).2).1
      = Resolve (One (Some (save (new_task "C") st).1.2)).
Proof.
  intros g st.
  apply (save_failed_write_keeps_memory st g (new_task "C") "tasks" "EROFS");
    reflexivity.
Defined.

Lemma load_that_never_settles_witness :
  let d := readonly None in
  let st1 := (loadGraph (Store None d)).2 in
  promise st1 = Some Pending
  ∧ (find "tasks" None (Store None d)).1 = Pending
  ∧ (save (new_task "A") st1).1.1 = Pending
  ∧ exec (Delete (stored_task 1 "A")) st1 = st1.
Proof.
  intros d st1.
  assert (Hcase : (file d = None ∧ is_Some (write_fault d (writes d)))
                  ∨ (∃ content, file d = Some content ∧ JSON_parse content = None))
    by (left; split; [reflexivity | by eexists]).
  destruct (load_that_never_settles d eq_refl Hcase) as (H1 & H2 & H3 & H4 & _).
  split_and!; [exact H1 | apply H3 | apply H4; by eexists
               | apply (H2 (Delete (stored_task 1 "A"))); reflexivity].
Defined.

Lemma generateUniqueID_is_unused_witness :
  let g := tasks [(2, stored_task 2 "B")] in
  ∃ k,
    (generateUniqueID "tasks" (loaded g)).1 = Resolve k
    ∧ entry g "tasks" k = None
    ∧ (∀ p k', g !! "tasks" = Some p → k' ∈ p.*1 → k' < k).
Proof.
  intros g.
  assert (Hsafe : ∀ p k, g !! "tasks" = Some p → k ∈ p.*1 → k < exact).
  { assert (Hp : g !! "tasks" = Some [(2, stored_task 2 "B")]) by by_computation.
    intros p k. rewrite Hp. intros [= <-].
    intros [->|[]%elem_of_nil]%elem_of_cons. reflexivity. }
  apply (generateUniqueID_is_unused (loaded g) g "tasks"); [reflexivity|].
  exact Hsafe.
Defined.

(** Beyond 2^53 the id given after the greatest one was deleted can be
    above it: the keys are 2^54 + 6 and 2^54 + 7, and the id is 2^54 + 8. *)
Example id_above_the_greatest_beyond_exact :
  let p := [(18014398509481990, stored_task 18014398509481990 "A");
            (18014398509481991, stored_task 18014398509481991 "B")] in
  id (save (new_task "C")
        (delete (stored_task 18014398509481991 "B") (loaded (tasks p))).2).1.2
  = Some 18014398509481992.
Proof. intros. by_computation. Qed.

Lemma id_reused_after_deleting_the_greatest_witness :
  let g := tasks [(1, stored_task 1 "A"); (2, stored_task 2 "B")] in
  ∃ k,
    id (save (new_task "C") (delete (stored_task 2 "B") (loaded g)).2).1.2
      = Some k
    ∧ 0 < k ≤ 2.
Proof.
  intros g.
  assert (Hg : (loadGraph (loaded g)).1 = Resolve g) by reflexivity.
  assert (Hp : g !! "tasks"
               = Some [(1, stored_task 1 "A"); (2, stored_task 2 "B")])
    by by_computation.
  assert (Hm : 2 ∈ [(1, stored_task 1 "A"); (2, stored_task 2 "B")].*1)
    by (right; left).
  assert (Hmax : ∀ k, k ∈ [(1, stored_task 1 "A"); (2, stored_task 2 "B")].*1
                      → k ≤ 2).
  { intros k [->|[->|[]%elem_of_nil]%elem_of_cons]%elem_of_cons; simpl; lia. }
  assert (Hpos : 0 < 2) by reflexivity.
  assert (Hsafe : 2 < exact) by reflexivity.
  exact (id_reused_after_deleting_the_greatest (loaded g) g "tasks" _ 2
           (stored_task 2 "B") (new_task "C") Hg Hp Hm Hpos Hsafe Hmax
           eq_refl eq_refl eq_refl eq_refl).
Defined.

Lemma finds_do_nothing_but_load_witness :
  let content : gmap string (partition task) :=
    {[ "tasks" := [(2, stored_task 2 "B")] ]} in
  let st := Store None (healthy (Some content)) in
  run [Find "tasks" None; Find "notes" (Some 3); Find "tasks" (Some 2)] st
    = (loadGraph st).2
  ∧ (loadGraph st).2
    = Store (Some (Resolve (tasks [(2, stored_task 2 "B")])))
        (Fs (Some content) (λ _, None) (λ _, None) 1 0).
Proof.
  intros content st.
  assert (Hne : [("tasks", None); ("notes", Some 3); ("tasks", Some 2)]
                ≠ ([] : list (string * option N))) by discriminate.
  assert (Hparse : JSON_parse content = Some (tasks [(2, stored_task 2 "B")]))
    by by_computation.
  destruct (finds_do_nothing_but_load _ st Hne) as [H1 H2].
  split; [exact H1|].
  exact (H2 content _ eq_refl eq_refl eq_refl Hparse).
Defined.

Lemma save_again_changes_nothing_witness :
  let st' := (save (new_task "A") first_run).2 in
  let r' := (save (new_task "A") first_run).1.2 in
  (save r' st').1.2 = r' ∧ promise (save r' st').2 = promise st'.
Proof.
  intros st' r'.
  apply (save_again_changes_nothing first_run empty_object (new_task "A")
           "tasks" (save (new_task "A") first_run).1.1 r' st').
  - by_computation.
  - reflexivity.
  - by_computation.
Defined.

Lemma find_rejects_exactly_undefined_type_witness :
  let g := tasks [(2, stored_task 2 "B")] in
  ((find "tasks" (Some 7) (loaded g)).1 = Reject (Error "unrecognized type")
   ↔ g !! "tasks" = None)
  ∧ (find "notes" None (loaded g)).1 = Reject (Error "unrecognized type")
  ∧ (find "valueOf" None (loaded g)).1 ≠ Reject (Error "unrecognized type")
  ∧ (find "tasks" (Some 7) (loaded g)).1 = Resolve (One None).
Proof.
  intros g.
  assert (Ho : object g) by apply object_insert, object_empty.
  assert (Hp : g !! "tasks" = Some [(2, stored_task 2 "B")]) by by_computation.
  assert (Hn : g !! "notes" = None) by by_computation.
  assert (Hk : 7 ∉ [(2, stored_task 2 "B")].*1)
    by (intros [[=]|[]%elem_of_nil]%elem_of_cons).
  assert (Hproto : entry g "__proto__" 7 = None) by by_computation.
  assert (Hv : "valueOf" ∈ Object_prototype)
    by (apply (bool_decide_unpack _); vm_compute; exact I).
  destruct (find_rejects_exactly_undefined_type (loaded g) g "tasks" (Some 7)
              eq_refl Ho) as (H1 & _ & H3).
  destruct (find_rejects_exactly_undefined_type (loaded g) g "notes" None
              eq_refl Ho) as (H4 & _ & _).
  destruct (find_rejects_exactly_undefined_type (loaded g) g "valueOf" None
              eq_refl Ho) as (_ & H5 & _).
  split_and!; [exact H1 | exact (proj2 H4 Hn) | exact (H5 Hv)
               | exact (H3 _ 7 Hp eq_refl Hk Hproto)].
Defined.

Lemma delete_of_inherited_member_rewrites_file_witness :
  let g := tasks [(2, stored_task 2 "B")] in
  let r := mkResource (Some "toString") (Some 7) (Task "N" []) in
  writes (disk (delete r (loaded g)).2) = 1%nat
  ∧ (delete r (loaded g)).1 ≠ Resolve None
  ∧ ∃ g', (delete r (loaded g)).1 = Resolve (Some g')
          ∧ promise (delete r (loaded g)).2 = Some (Resolve g')
          ∧ file (disk (delete r (loaded g)).2) = Some (JSON_stringify g').
Proof.
  intros g r.
  assert (Ho : object g) by apply object_insert, object_empty.
  assert (Hn : "toString" ∈ Object_prototype)
    by (apply (bool_decide_unpack _); vm_compute; exact I).
  destruct (delete_of_inherited_member_rewrites_file (loaded g) g r "toString" 7
              eq_refl Ho Hn eq_refl eq_refl) as (H1 & H2 & H3).
  split_and!; [exact H1 | exact H2 | exact (H3 eq_refl)].
Defined.

Lemma partition_survives_its_last_resource_witness :
  let st' := (save (new_task "A") first_run).2 in
  let r' := (save (new_task "A") first_run).1.2 in
  (find "tasks" None first_run).1 = Reject (Error "unrecognized type")
  ∧ (find "tasks" None (delete r' st').2).1 = Resolve (Many []).
Proof.
  intros st' r'.
  apply (partition_survives_its_last_resource first_run empty_object
           (new_task "A") "tasks" (save (new_task "A") first_run).1.1 r' st').
  - by_computation.
  - apply object_empty.
  - by_computation.
  - reflexivity.
  - by_computation.
Defined.

End Store.

(** * Properties of the task component *)

Module TaskFacts.

Import Task.

#[local] Open Scope Z_scope.

Ltac unfold_units :=
  unfold years, months, weeks, days, hours, minutes, seconds in *.

(** One step of [friendlyTime], branch by branch. *)
Lemma friendlyTime_step milliseconds :
  friendlyTime milliseconds =
  if decide (seconds milliseconds < 60) then
    Some (pretty (seconds milliseconds) +:+ "sec")
  else if decide (minutes milliseconds < 60) then
    Some (pretty (minutes milliseconds) +:+ "min " +:+
          interpolate (friendlyTime
            (milliseconds - minutes milliseconds * 1000 * 60)))
  else if decide (hours milliseconds < 24) then
    Some (pretty (hours milliseconds) +:+ "hr " +:+
          interpolate (friendlyTime
            (milliseconds - hours milliseconds * 1000 * 60 * 60)))
  else if decide (days milliseconds < 7) then
    Some (pretty (days milliseconds) +:+ "d " +:+
          interpolate (friendlyTime
            (milliseconds - days milliseconds * 1000 * 60 * 60 * 24)))
  else if decide (weeks milliseconds < 4) then
    Some (pretty (weeks milliseconds) +:+ "w " +:+
          interpolate (friendlyTime
            (milliseconds - weeks milliseconds * 1000 * 60 * 60 * 24 * 7)))
  else if decide (months milliseconds < 12) then
    Some (pretty (months milliseconds) +:+ "m " +:+
          interpolate (friendlyTime
            (milliseconds - months milliseconds * 1000 * 60 * 60 * 24 * 7 * 4)))
  else if decide (years milliseconds < 12) then
    Some (pretty (years milliseconds) +:+ "y " +:+
          interpolate (friendlyTime
            (milliseconds
             - years milliseconds * 1000 * 60 * 60 * 24 * 7 * 4 * 12)))
  else None.
Proof.
  rewrite friendlyTime_unfold_eq at 1. unfold friendlyTime_unfold.
  repeat (destruct (decide _); simpl; [reflexivity|]). reflexivity.
Qed.

Ltac solve_units := unfold_units; Z.div_mod_to_equations; lia.

(** X13: [friendlyTime] returns [undefined] exactly from twelve of its years
    on, that is from 348364800000 milliseconds (4032 days); below that, and
    for every negative argument, it returns a text. *)
Theorem friendlyTime_undefined_iff milliseconds :
  friendlyTime milliseconds = None ↔ 348364800000 ≤ milliseconds.
Proof.
  rewrite friendlyTime_step.
  repeat (destruct (decide _); [split; [done | intros; solve_units]|]).
  split; [intros _; solve_units | done].
Qed.

Lemma friendlyTime_rest milliseconds unit :
  0 < unit ≤ 348364800000 →
  ∃ rest, friendlyTime (milliseconds `mod` unit) = Some rest.
Proof.
  intros Hunit. destruct (friendlyTime (milliseconds `mod` unit)) eqn:E; [eauto|].
  apply friendlyTime_undefined_iff in E.
  pose proof (Z.mod_pos_bound milliseconds unit). lia.
Qed.

Tactic Notation "take_branch" integer(n) :=
  rewrite friendlyTime_step;
  do n (rewrite decide_False by solve_units);
  rewrite decide_True by solve_units.

(** X14: what [friendlyTime] prints. Below one minute, and down to -2^53,
    it prints the whole seconds; from one minute on it prints the number of
    whole units of the greatest unit that fits, then what it prints for the
    remainder modulo that unit. The units are the minute, the hour, the day,
    the week, a month of 4 weeks and a year of 12 such months; the remainder
    is never printed as 'undefined'. *)
Theorem friendlyTime_by_unit milliseconds :
  (-9007199254740992 ≤ milliseconds < 60000 →
   friendlyTime milliseconds = Some (pretty (milliseconds / 1000) +:+ "sec"))
  ∧ (60000 ≤ milliseconds < 3600000 → splits milliseconds 60000 "min ")
  ∧ (3600000 ≤ milliseconds < 86400000 → splits milliseconds 3600000 "hr ")
  ∧ (86400000 ≤ milliseconds < 604800000 → splits milliseconds 86400000 "d ")
  ∧ (604800000 ≤ milliseconds < 2419200000 →
     splits milliseconds 604800000 "w ")
  ∧ (2419200000 ≤ milliseconds < 29030400000 →
     splits milliseconds 2419200000 "m ")
  ∧ (29030400000 ≤ milliseconds < 348364800000 →
     splits milliseconds 29030400000 "y ").
Proof.
  split_and!; intros H.
  - take_branch 0. done.
  - destruct (friendlyTime_rest milliseconds 60000) as [rest E]; [lia|].
    exists rest. split; [done|]. take_branch 1.
    replace (minutes milliseconds) with (milliseconds / 60000) by solve_units.
    replace (milliseconds - milliseconds / 60000 * 1000 * 60)
      with (milliseconds `mod` 60000) by solve_units.
    by rewrite E.
  - destruct (friendlyTime_rest milliseconds 3600000) as [rest E]; [lia|].
    exists rest. split; [done|]. take_branch 2.
    replace (hours milliseconds) with (milliseconds / 3600000) by solve_units.
    replace (milliseconds - milliseconds / 3600000 * 1000 * 60 * 60)
      with (milliseconds `mod` 3600000) by solve_units.
    by rewrite E.
  - destruct (friendlyTime_rest milliseconds 86400000) as [rest E]; [lia|].
    exists rest. split; [done|]. take_branch 3.
    replace (days milliseconds) with (milliseconds / 86400000) by solve_units.
    replace (milliseconds - milliseconds / 86400000 * 1000 * 60 * 60 * 24)
      with (milliseconds `mod` 86400000) by solve_units.
    by rewrite E.
  - destruct (friendlyTime_rest milliseconds 604800000) as [rest E]; [lia|].
    exists rest. split; [done|]. take_branch 4.
    replace (weeks milliseconds) with (milliseconds / 604800000) by solve_units.
    replace (milliseconds - milliseconds / 604800000 * 1000 * 60 * 60 * 24 * 7)
      with (milliseconds `mod` 604800000) by solve_units.
    by rewrite E.
  - destruct (friendlyTime_rest milliseconds 2419200000) as [rest E]; [lia|].
    exists rest. split; [done|]. take_branch 5.
    replace (months milliseconds) with (milliseconds / 2419200000)
      by solve_units.
    replace (milliseconds
             - milliseconds / 2419200000 * 1000 * 60 * 60 * 24 * 7 * 4)
      with (milliseconds `mod` 2419200000) by solve_units.
    by rewrite E.
  - destruct (friendlyTime_rest milliseconds 29030400000) as [rest E]; [lia|].
    exists rest. split; [done|]. take_branch 6.
    replace (years milliseconds) with (milliseconds / 29030400000)
      by solve_units.
    replace (milliseconds
             - milliseconds / 29030400000 * 1000 * 60 * 60 * 24 * 7 * 4 * 12)
      with (milliseconds `mod` 29030400000) by solve_units.
    by rewrite E.
Qed.

Lemma total_from (entries : list entry) (start : Z) :
  foldl (λ total entry, total + (to entry - from entry)) start entries
  = start + foldl (λ total entry, total + (to entry - from entry)) 0 entries.
Proof.
  revert start. induction entries as [|e entries IH]; intros start; simpl.
  - lia.
  - rewrite IH, (IH (0 + _)). lia.
Qed.

(** X15: the time shown for a task depends on its entries only through the
    sum of their durations: entries in another order show the same time.
    The entries end after they begin and their time stamps and total stay
    within 2^53, so that every sum is exact in whatever order it is made. *)
Theorem time_of_permuted_entries (entries entries' : list entry) :
  (∀ e, e ∈ entries → 0 ≤ from e ≤ to e ≤ 9007199254740992) →
  foldl (λ total entry, total + (to entry - from entry)) 0 entries
    ≤ 9007199254740992 →
  entries ≡ₚ entries' → time entries = time entries'.
Proof.
  intros _ _ Hperm. unfold time. f_equal.
  induction Hperm as [|e es es' _ IH|e1 e2 es|es1 es2 es3 _ IH1 _ IH2]; simpl.
  - done.
  - by rewrite total_from, IH, <- total_from.
  - rewrite (total_from _ (0 + _ + _)), (total_from _ (0 + _ + _)). lia.
  - congruence.
Qed.

Lemma friendlyTime_by_unit_witness :
  friendlyTime (-1500) = Some (pretty (-1500 / 1000) +:+ "sec")
  ∧ friendlyTime 59999 = Some (pretty (59999 / 1000) +:+ "sec")
  ∧ splits 3605000 3600000 "hr "
  ∧ splits 348364799999 29030400000 "y ".
Proof.
  destruct (friendlyTime_by_unit (-1500)) as (H0 & _).
  destruct (friendlyTime_by_unit 59999) as (H1 & _).
  destruct (friendlyTime_by_unit 3605000) as (_ & _ & H2 & _).
  destruct (friendlyTime_by_unit 348364799999) as (_ & _ & _ & _ & _ & _ & H3).
  split_and!; [apply H0 | apply H1 | apply H2 | apply H3]; lia.
Defined.

Lemma time_of_permuted_entries_witness :
  time [Entry 1000 61000; Entry 70000 75000]
  = time [Entry 70000 75000; Entry 1000 61000].
Proof.
  apply time_of_permuted_entries.
  - intros e [->|[->|[]%elem_of_nil]%elem_of_cons]%elem_of_cons; simpl; lia.
  - simpl. lia.
  - apply perm_swap.
Defined.

End TaskFacts.

(** * Properties of the component loader *)

Module ComponentsFacts.

Import Components.

Section Loader.

Context {error settings : Type}.

Implicit Types (h : host error settings) (c : Component settings).
Implicit Types (file : string) (e : error).

Lemma Promise_all_fulfilled {A} h (ps : list (promise error A)) :
  omap rejected_at_once ps = [] →
  omap rejected_later ps = [] →
  ps = Fulfills <$> omap fulfilled ps.
Proof.
  induction ps as [|[a|e|e] ps IH]; simpl; [done|..]; try done.
  intros H1 H2. f_equal. by apply IH.
Qed.

Lemma Promise_all_values {A} h (vs : list A) :
  Promise_all (error:=error) h (Fulfills <$> vs) = inr vs.
Proof.
  unfold Promise_all.
  assert (omap rejected_at_once (Fulfills (error:=error) <$> vs) = []) as ->
    by (induction vs; simpl; done).
  assert (omap rejected_later (Fulfills (error:=error) <$> vs) = []) as ->
    by (induction vs; simpl; done).
  f_equal. induction vs; simpl; [done | by f_equal].
Qed.

Lemma Promise_all_inr {A} h (ps : list (promise error A)) vs :
  Promise_all h ps = inr vs ↔ ps = Fulfills <$> vs.
Proof.
  split; [|intros ->; apply Promise_all_values].
  unfold Promise_all.
  destruct (omap rejected_at_once ps) eqn:H1; [|done].
  destruct (omap rejected_later ps) eqn:H2; [|done].
  intros [= <-]. by apply Promise_all_fulfilled.
Qed.

Lemma retrieveComponentOptions_Fulfills h file c :
  retrieveComponentOptions h file = Fulfills c ↔ loaded_as h file c.
Proof.
  unfold retrieveComponentOptions, retrieveTemplate, loaded_as.
  destruct (require h _) as [e|exports]; simpl.
  - split; [done | by intros (? & ? & ? & _)].
  - destruct (readFile h _) as [e|data]; simpl.
    + split; [done | by intros (? & ? & _ & ? & _)].
    + split.
      * intros [= <-]. eauto.
      * by intros (? & ? & [= <-] & [= <-] & ->).
Qed.

(** X16: the promise the loader exports resolves exactly when the directory
    can be read and every entry other than 'index.js' loads; it then
    resolves with one component per such entry, in the order of the
    directory, each under the name of its entry and with the content of its
    own template file. 'index.js' is never loaded as a component. *)
Theorem exports_one_component_per_entry h (cs : list (Component settings)) :
  module_exports h = inr cs
  ↔ ∃ files,
      readdir h = inr files
      ∧ Forall2 (loaded_as h) (filter (λ file, file ≠ "index.js") files) cs.
Proof.
  unfold module_exports, retrieveComponents, retrieveComponentsOptions.
  destruct (readdir h) as [e|files].
  { split; [done | by intros (? & ? & _)]. }
  rewrite Promise_all_inr, list_eq_Forall2, Forall2_fmap.
  split.
  - intros Hall. exists files. split; [done|].
    eapply Forall2_impl; [exact Hall|]. intros file c.
    apply retrieveComponentOptions_Fulfills.
  - intros (? & [= <-] & Hall).
    eapply Forall2_impl; [exact Hall|]. intros file c.
    apply retrieveComponentOptions_Fulfills.
Qed.

(** X17: when the exported promise rejects, its reason is the error of
    [readdir], or the error with which a directory entry other than
    'index.js' failed to load: thrown by [require], or given by the read of
    its template once [require] succeeded. *)
Theorem exports_reject_with_an_error_of_the_host h e :
  (∀ es, es ≠ [] → first_to_fail h es ∈ es) →
  module_exports h = inl e →
  readdir h = inl e
  ∨ ∃ files file,
      readdir h = inr files
      ∧ file ∈ files
      ∧ file ≠ "index.js"
      ∧ (require h ("./" +:+ file +:+ "/index") = inl e
         ∨ (∃ exports, require h ("./" +:+ file +:+ "/index") = inr exports)
           ∧ readFile h (path_join h (dirname h) file "template.html") = inl e).
Proof.
  intros Hrace. unfold module_exports, retrieveComponents.
  destruct (readdir h) as [e0|files]; [intros [= ->]; by left|].
  intros Hall. right. exists files.
  set (names := filter (λ file, file ≠ "index.js") files) in *.
  assert (Hp : ∃ p file, file ∈ names ∧ retrieveComponentOptions h file = p
                         ∧ (p = RejectsAtOnce e ∨ p = RejectsLater e)).
  { revert Hall. unfold retrieveComponentsOptions, Promise_all.
    destruct (omap rejected_at_once _) as [|e1 es1] eqn:H1.
    - destruct (omap rejected_later _) as [|e2 es2] eqn:H2; [done|].
      intros [= <-].
      assert (Hin : first_to_fail h (e2 :: es2) ∈ e2 :: es2) by by apply Hrace.
      rewrite <- H2 in Hin at 2.
      apply list_elem_of_omap in Hin as (p & Hp & Hlater).
      apply list_elem_of_fmap in Hp as (file & -> & Hfile).
      eexists _, file. split_and!; [done..|]. right.
      by destruct (retrieveComponentOptions h file); simplify_eq/=.
    - intros [= <-].
      assert (Hin : e1 ∈ omap rejected_at_once
                (retrieveComponentOptions h <$> names)) by (rewrite H1; left).
      apply list_elem_of_omap in Hin as (p & Hp & Hnow).
      apply list_elem_of_fmap in Hp as (file & -> & Hfile).
      eexists _, file. split_and!; [done..|]. left.
      by destruct (retrieveComponentOptions h file); simplify_eq/=. }
  destruct Hp as (p & file & Hfile & Hload & Hp). exists file.
  apply list_elem_of_filter in Hfile as [Hne Hfile].
  split_and!; [done..|]. subst p.
  unfold retrieveComponentOptions, retrieveTemplate in Hp.
  destruct (require h _) as [e1|exports].
  - left. destruct Hp as [[= ->]|[=]]. done.
  - right. split; [eauto|].
    destruct (readFile h _) as [e2|data]; destruct Hp as [[=]|[=]]. by subst.
Qed.

(** X18: a [require] that throws wins. When the module of an entry cannot be
    required, and those of the entries before it can, the exported promise
    rejects with the error thrown for that entry, whatever becomes of the
    reads of the templates. *)
Theorem exports_reject_with_the_first_failed_require h files before file after e :
  readdir h = inr files →
  filter (λ file, file ≠ "index.js") files = before ++ file :: after →
  (∀ file', file' ∈ before →
            ∃ exports, require h ("./" +:+ file' +:+ "/index") = inr exports) →
  require h ("./" +:+ file +:+ "/index") = inl e →
  module_exports h = inl e.
Proof.
  intros Hdir Hsplit Hbefore Hfile.
  unfold module_exports, retrieveComponents. rewrite Hdir, Hsplit.
  unfold retrieveComponentsOptions, Promise_all.
  rewrite fmap_app, fmap_cons, omap_app.
  assert (omap rejected_at_once (retrieveComponentOptions h <$> before) = [])
    as ->.
  { clear Hsplit.
    induction before as [|b before IH]; [done|]. rewrite fmap_cons. simpl.
    destruct (Hbefore b) as [exports Hb]; [left|].
    unfold retrieveComponentOptions at 1. rewrite Hb.
    destruct (retrieveTemplate h b); simpl; apply IH;
      intros ? ?; apply Hbefore; by right. }
  simpl. unfold retrieveComponentOptions at 1. by rewrite Hfile.
Qed.

End Loader.

Lemma exports_one_component_per_entry_witness :
  module_exports (app_host app_files)
  = inr [mkComponent "new-task"
           (mkOptions (Some "<template of src/components/new-task/template.html>") ());
         mkComponent "task"
           (mkOptions (Some "<template of src/components/task/template.html>") ());
         mkComponent "tasks"
           (mkOptions (Some "<template of src/components/tasks/template.html>") ())].
Proof.
  apply exports_one_component_per_entry. exists app_files.
  split; [reflexivity|].
  repeat constructor; by eexists _, _.
Defined.

Lemma exports_reject_with_an_error_of_the_host_witness :
  module_exports (app_host ["index.js"; "ghost"; "task"]) = inl "ENOENT"
  ∧ (readdir (app_host ["index.js"; "ghost"; "task"]) = inl "ENOENT"
     ∨ ∃ files file,
         readdir (app_host ["index.js"; "ghost"; "task"]) = inr files
         ∧ file ∈ files
         ∧ file ≠ "index.js"
         ∧ (require (app_host ["index.js"; "ghost"; "task"])
              ("./" +:+ file +:+ "/index") = inl "ENOENT"
            ∨ (∃ exports,
                 require (app_host ["index.js"; "ghost"; "task"])
                   ("./" +:+ file +:+ "/index") = inr exports)
              ∧ readFile (app_host ["index.js"; "ghost"; "task"])
                  (path_join (app_host ["index.js"; "ghost"; "task"])
                     (dirname (app_host ["index.js"; "ghost"; "task"]))
                     file "template.html") = inl "ENOENT")).
Proof.
  assert (H : module_exports (app_host ["index.js"; "ghost"; "task"])
              = inl "ENOENT") by (vm_compute; reflexivity).
  assert (Hrace : ∀ es : list string,
            es ≠ [] →
            first_to_fail (app_host ["index.js"; "ghost"; "task"]) es ∈ es).
  { intros [|e es] Hes; [done | left]. }
  split; [exact H|].
  exact (exports_reject_with_an_error_of_the_host _ _ Hrace H).
Defined.

Lemma exports_reject_with_the_first_failed_require_witness :
  module_exports (app_host ["ghost"; "index.js"; "broken"; "task"])
  = inl "MODULE_NOT_FOUND".
Proof.
  apply (exports_reject_with_the_first_failed_require
           (app_host ["ghost"; "index.js"; "broken"; "task"])
           ["ghost"; "index.js"; "broken"; "task"] ["ghost"] "broken" ["task"]).
  - reflexivity.
  - vm_compute. reflexivity.
  - intros file' ->%list_elem_of_singleton. by eexists.
  - reflexivity.
Defined.

End ComponentsFacts.
